(** * Task-processing pipeline of Script-Assist: a shallow embedding

    The TypeScript services are embedded as functions in a small
    state-and-exception monad.  The world holds the relational store
    (committed rows and the rows of an open transaction), the queue
    transport, the Redis key space and the log.  Faults of the external
    stores are injected through an environment of flags, read by the
    primitive store operations exactly where the TypeScript code awaits
    them. *)

From Stdlib Require Import ZArith Lia String List.
From stdpp Require Import base gmap strings list sorting pretty.
Import ListNotations.

Open Scope Z_scope.

(** ** Data model (src/modules/tasks) *)

Inductive TaskStatus := PENDING | IN_PROGRESS | COMPLETED.
Inductive TaskPriority := LOW | MEDIUM | HIGH.

#[global] Instance TaskStatus_eq_dec : EqDecision TaskStatus.
Proof. solve_decision. Defined.

Definition TaskStatus_value (s : TaskStatus) : string :=
  match s with
  | PENDING => "PENDING"
  | IN_PROGRESS => "IN_PROGRESS"
  | COMPLETED => "COMPLETED"
  end.

(** [Object.values(TaskStatus)] *)
Definition TaskStatus_values : list string :=
  map TaskStatus_value [PENDING; IN_PROGRESS; COMPLETED].

Record Task := mkTask {
  id : string;
  title : string;
  description : string;
  status : TaskStatus;
  priority : TaskPriority;
  dueDate : option Z;
  userId : string;
}.

Record CreateTaskDto := mkCreateTaskDto {
  c_title : string;
  c_description : string;
  c_status : TaskStatus;
  c_priority : TaskPriority;
  c_dueDate : option Z;
  c_userId : string;
}.

(** Every field of an update is optional; [merge] copies the defined ones. *)
Record UpdateTaskDto := mkUpdateTaskDto {
  u_title : option string;
  u_description : option string;
  u_status : option TaskStatus;
  u_priority : option TaskPriority;
  u_dueDate : option (option Z);
}.

(** ** Queue jobs (BullMQ) *)

Inductive JobData :=
  (** [{ taskId, status }]: the fields may be missing in a received job *)
  | StatusUpdateData (taskId : option string) (st : option string)
  (** [{ taskIds, batchSize, checkedAt }] *)
  | OverdueData (taskIds : option (list string)) (batchSize : option Z)
                (checkedAt : Z)
  | OtherData.

Record Job := mkJob {
  job_name : string;
  job_data : JobData;
  (** [opts.attempts]; [None] when the job is added without options *)
  job_attempts : option Z;
}.

(** ** Failures *)

Record RateLimitPayload := mkRateLimitPayload {
  rl_error : string;
  rl_limit : Z;
  rl_remaining : Z;
  rl_resetAt : Z;
}.

Inductive Exn :=
  | BadRequestException (msg : string)
  | NotFoundException (msg : string)
  | HttpException (payload : RateLimitPayload)
  (** any other [Error]: store or network failure *)
  | StoreError (msg : string).

Definition errorMessage (e : Exn) : string :=
  match e with
  | BadRequestException m | NotFoundException m | StoreError m => m
  | HttpException p => rl_error p
  end.

(** ** The world and its faults *)

Inductive LogLevel := LDebug | LLog | LWarn | LError.

Record Faults := mkFaults {
  f_save : bool;      (** [manager.save] rejects *)
  f_commit : bool;    (** [commitTransaction] rejects *)
  f_update : bool;    (** [manager.update] rejects *)
  f_add : bool;       (** [queue.add] rejects *)
  f_addBulk : bool;   (** [queue.addBulk] rejects *)
  f_query : bool;     (** the overdue query's [getMany] rejects *)
}.

Definition no_faults : Faults := mkFaults false false false false false false.

Record World := mkWorld {
  w_db : gmap string Task;             (** committed rows *)
  w_txn : option (gmap string Task);   (** rows seen by the open transaction *)
  w_queue : list Job;                  (** jobs accepted by the transport *)
  w_logs : list (LogLevel * string);   (** level and message *)
  w_faults : Faults;
  w_next_id : string;                  (** id the store assigns on insert *)
}.

Inductive Res (A : Type) := Ok (a : A) | Throw (e : Exn).
Arguments Ok {A} a.
Arguments Throw {A} e.

(** The state-and-exception monad the services are written in, over the
    state [S] of the stores a service talks to. *)
Definition ST (S A : Type) := S -> Res A * S.

Section Monad.
Context {S : Type}.
Definition ret {A} (a : A) : ST S A := fun w => (Ok a, w).
Definition bind {A B} (m : ST S A) (k : A -> ST S B) : ST S B :=
  fun w => match m w with
           | (Ok a, w') => k a w'
           | (Throw e, w') => (Throw e, w')
           end.
Definition throw {A} (e : Exn) : ST S A := fun w => (Throw e, w).
(** [try { m } catch (e) { h(e) }] *)
Definition try_catch {A} (m : ST S A) (h : Exn -> ST S A) : ST S A :=
  fun w => match m w with
           | (Ok a, w') => (Ok a, w')
           | (Throw e, w') => h e w'
           end.
(** [try { m } finally { f }] *)
Definition try_finally {A} (m : ST S A) (f : ST S unit) : ST S A :=
  fun w => match m w with
           | (r, w') => match f w' with
                        | (Ok _, w'') => (r, w'')
                        | (Throw e, w'') => (Throw e, w'')
                        end
           end.
Definition gets {A} (f : S -> A) : ST S A := fun w => (Ok (f w), w).
Definition modify (f : S -> S) : ST S unit := fun w => (Ok tt, f w).
End Monad.

Abbreviation M := (ST World).

Notation "x <- m ;; k" := (bind m (fun x => k))
  (at level 95, m at next level, right associativity).
Notation "m ;;; k" := (bind m (fun _ => k))
  (at level 95, right associativity).

Definition log_msg (l : LogLevel) (m : string) : M unit :=
  modify (fun w => mkWorld (w_db w) (w_txn w) (w_queue w) (w_logs w ++ [(l, m)])
                           (w_faults w) (w_next_id w)).

(** A log line whose text no property reads. *)
Definition log (l : LogLevel) : M unit := log_msg l "".

Definition set_db (db : gmap string Task) : M unit :=
  modify (fun w => mkWorld db (w_txn w) (w_queue w) (w_logs w)
                           (w_faults w) (w_next_id w)).
Definition set_txn (t : option (gmap string Task)) : M unit :=
  modify (fun w => mkWorld (w_db w) t (w_queue w) (w_logs w)
                           (w_faults w) (w_next_id w)).
Definition set_queue (q : list Job) : M unit :=
  modify (fun w => mkWorld (w_db w) (w_txn w) q (w_logs w)
                           (w_faults w) (w_next_id w)).

(** ** Query runner (TypeORM) *)

Definition startTransaction : M unit :=
  db <- gets w_db ;; set_txn (Some db).

Definition txn_rows : M (gmap string Task) :=
  t <- gets w_txn ;; db <- gets w_db ;;
  ret (match t with Some r => r | None => db end).

Definition commitTransaction : M unit :=
  fl <- gets w_faults ;;
  if f_commit fl then throw (StoreError "commit failed") else
  rows <- txn_rows ;; set_db rows ;;; set_txn None.

Definition rollbackTransaction : M unit := set_txn None.

(** [queryRunner.manager.save(Task, task)]: an entity with an empty id is
    inserted under the id the store generates. *)
Definition manager_save (t : Task) : M Task :=
  fl <- gets w_faults ;;
  if f_save fl then throw (StoreError "save failed") else
  nid <- gets w_next_id ;;
  let t' := if String.eqb (id t) "" then
              mkTask nid (title t) (description t) (status t) (priority t)
                     (dueDate t) (userId t)
            else t in
  rows <- txn_rows ;; set_txn (Some (<[id t' := t']> rows)) ;;; ret t'.

Definition manager_findOne (i : string) : M (option Task) :=
  rows <- txn_rows ;; ret (rows !! i).

(** [queryRunner.manager.update(Task, { id: In(ids) }, { status })]:
    returns [affected], the number of rows whose id is in [ids]. *)
Definition manager_update_status (ids : list string) (s : TaskStatus) : M Z :=
  fl <- gets w_faults ;;
  if f_update fl then throw (StoreError "update failed") else
  rows <- txn_rows ;;
  let hit := filter (fun kv : string * Task => kv.1 ∈ ids) (map_to_list rows) in
  let rows' := foldr (fun kv (m : gmap string Task) =>
                 let t := kv.2 in
                 <[kv.1 := mkTask (id t) (title t) (description t) s (priority t)
                                  (dueDate t) (userId t)]> m) rows hit in
  set_txn (Some rows') ;;; ret (Z.of_nat (length hit)).

(** [tasksRepository.findOne({ where: { id }, relations: ['user'] })] *)
Definition repository_findOne (i : string) : M (option Task) :=
  db <- gets w_db ;; ret (db !! i).

(** [tasksRepository.delete(criteria)] on [{ id: In(ids) }] (or a single id):
    removes the matching rows and returns [affected]. *)
Definition repository_delete (ids : list string) : M Z :=
  db <- gets w_db ;;
  let hit := filter (fun kv : string * Task => kv.1 ∈ ids) (map_to_list db) in
  set_db (filter (fun kv : string * Task => kv.1 ∉ ids) db) ;;;
  ret (Z.of_nat (length hit)).

(** [tasksRepository.find({ where: { status } })]; no [ORDER BY], so the
    order of the rows is the store's. *)
Definition repository_find_status (s : TaskStatus) : M (list Task) :=
  db <- gets w_db ;; ret (filter (fun t => status t = s) (map snd (map_to_list db))).

(** ** Queue transport *)

Definition queue_add (name : string) (d : JobData) (attempts : option Z) : M unit :=
  fl <- gets w_faults ;;
  if f_add fl then throw (StoreError "queue add failed") else
  q <- gets w_queue ;; set_queue (q ++ [mkJob name d attempts]).

Definition queue_addBulk (jobs : list Job) : M unit :=
  fl <- gets w_faults ;;
  if f_addBulk fl then throw (StoreError "queue addBulk failed") else
  q <- gets w_queue ;; set_queue (q ++ jobs).

(** [queryRunner.release()]: returns the connection to the pool. *)
Definition release : M unit := ret tt.

(** A store whose rows sit under their own ids, as [save(task)] (which
    writes at [task.id]) and the inserts of [create] keep it. *)
Definition keys_match (db : gmap string Task) : Prop :=
  forall k t, db !! k = Some t -> id t = k.

(** ** TasksService (src/modules/tasks/tasks.service.ts) *)
Module TasksService.

(** [this.tasksRepository.create(createTaskDto)]: a new entity, not yet
    carrying an id. *)
Definition repository_create (d : CreateTaskDto) : Task :=
  mkTask "" (c_title d) (c_description d) (c_status d) (c_priority d)
         (c_dueDate d) (c_userId d).

Definition status_job (t : Task) : JobData :=
  StatusUpdateData (Some (id t)) (Some (TaskStatus_value (status t))).

Definition create (dto : CreateTaskDto) : M Task :=
  startTransaction ;;;
  try_finally
    (try_catch
       (let task := repository_create dto in
        savedTask <- manager_save task ;;
        commitTransaction ;;;
        try_catch (queue_add "task-status-update" (status_job savedTask) None)
                  (fun _ => log LError) ;;;
        ret savedTask)
       (fun e => rollbackTransaction ;;; log LError ;;; throw e))
    release.

(** [findOne(id)] *)
Definition findOne (i : string) : M Task :=
  r <- repository_findOne i ;;
  match r with
  | Some t => ret t
  | None => throw (NotFoundException ("Task with ID " ++ i ++ " not found"))
  end.

(** [queryRunner.manager.merge(Task, task, updateTaskDto)] *)
Definition merge (t : Task) (d : UpdateTaskDto) : Task :=
  mkTask (id t)
         (default (title t) (u_title d))
         (default (description t) (u_description d))
         (default (status t) (u_status d))
         (default (priority t) (u_priority d))
         (default (dueDate t) (u_dueDate d))
         (userId t).

Definition update (i : string) (dto : UpdateTaskDto) : M Task :=
  startTransaction ;;;
  try_finally
    (try_catch
       (r <- manager_findOne i ;;
        match r with
        | None => throw (NotFoundException ("Task with ID " ++ i ++ " not found"))
        | Some task =>
            let originalStatus := status task in
            updatedTask <- manager_save (merge task dto) ;;
            commitTransaction ;;;
            (if decide (originalStatus <> status updatedTask) then
               try_catch (queue_add "task-status-update" (status_job updatedTask) None)
                         (fun _ => log LError)
             else ret tt) ;;;
            findOne i
        end)
       (fun e => rollbackTransaction ;;; log LError ;;; throw e))
    release.

Record BatchResult := mkBatchResult { success : Z; failed : Z }.

Definition batchComplete (taskIds : list string) : M BatchResult :=
  startTransaction ;;;
  try_finally
    (try_catch
       (affected <- manager_update_status taskIds COMPLETED ;;
        commitTransaction ;;;
        (if decide (0 < length taskIds)%nat then
           let jobs := map (fun taskId =>
                         mkJob "task-status-update"
                           (StatusUpdateData (Some taskId)
                              (Some (TaskStatus_value COMPLETED))) None) taskIds in
           try_catch (queue_addBulk jobs ;;; log LDebug) (fun _ => log LError)
         else ret tt) ;;;
        ret (mkBatchResult affected (Z.of_nat (length taskIds) - affected)))
       (fun e => rollbackTransaction ;;; log LError ;;; throw e))
    release.

(** [tasksRepository.save(task)] outside a transaction *)
Definition repository_save (t : Task) : M Task :=
  fl <- gets w_faults ;;
  if f_save fl then throw (StoreError "save failed") else
  db <- gets w_db ;; set_db (<[id t := t]> db) ;;; ret t.

Definition updateStatus (i : string) (s : TaskStatus) : M Task :=
  task <- findOne i ;;
  repository_save (mkTask (id task) (title task) (description task) s
                          (priority task) (dueDate task) (userId task)).

Definition remove (i : string) : M unit :=
  affected <- repository_delete [i] ;;
  if decide (affected = 0) then throw (NotFoundException ("Task with ID " ++ i ++ " not found"))
  else ret tt.

Definition findByStatus (s : TaskStatus) : M (list Task) := repository_find_status s.

Record Stats := mkStats {
  st_total : Z;
  st_completed : Z;
  st_inProgress : Z;
  st_pending : Z;
  st_highPriority : Z;
}.

Definition is_high (t : Task) : bool :=
  match priority t with HIGH => true | _ => false end.

(** [SUM(CASE WHEN p THEN 1 ELSE 0 END)]: SQL gives NULL over no rows. *)
Definition sql_sum_case (p : Task -> bool) (rows : list Task) : option Z :=
  match rows with
  | [] => None
  | _ => Some (Z.of_nat (length (filter (fun t => p t = true) rows)))
  end.

(** [parseInt(x, 10) || 0]: NULL parses to NaN, which is falsy. *)
Definition parse_or_0 (x : option Z) : Z := default 0 x.

Definition getStats : M Stats :=
  db <- gets w_db ;;
  let rows := map snd (map_to_list db) in
  let st s t := bool_decide (status t = s) in
  ret (mkStats (parse_or_0 (Some (Z.of_nat (length rows))))
               (parse_or_0 (sql_sum_case (st COMPLETED) rows))
               (parse_or_0 (sql_sum_case (st IN_PROGRESS) rows))
               (parse_or_0 (sql_sum_case (st PENDING) rows))
               (parse_or_0 (sql_sum_case is_high rows))).

Definition batchDelete (taskIds : list string) : M BatchResult :=
  affected <- repository_delete taskIds ;;
  ret (mkBatchResult affected (Z.of_nat (length taskIds) - affected)).

Record PageMeta := mkPageMeta {
  pm_total : Z;
  pm_page : Z;
  pm_limit : Z;
  pm_totalPages : Z;
}.

(** The pagination of [findAll] over [rows], the rows one page query
    matches, in the order that query returns them (ties in the sort column
    come in an order the database chooses per query):
    [skip((page - 1) * limit).take(limit)] with [getManyAndCount], and
    [totalPages: Math.ceil(total / limit)]. *)
Definition paginate (rows : list Task) (page limit : Z) : list Task * PageMeta :=
  let skip := (page - 1) * limit in
  let data := take (Z.to_nat limit) (drop (Z.to_nat skip) rows) in
  let total := Z.of_nat (length rows) in
  (data, mkPageMeta total page limit (- ((- total) / limit))).

(** The job [batchComplete] builds for one id *)
Definition completed_job (taskId : string) : Job :=
  mkJob "task-status-update"
        (StatusUpdateData (Some taskId) (Some (TaskStatus_value COMPLETED))) None.

End TasksService.

(** ** TasksController (src/modules/tasks/tasks.controller.ts) *)
Module TasksController.

(** [batchProcess]: the [switch (action)] over the validated body *)
Definition batchProcess (taskIds : list string) (action : string) : M TasksService.BatchResult :=
  if String.eqb action "complete" then TasksService.batchComplete taskIds
  else if String.eqb action "delete" then TasksService.batchDelete taskIds
  else throw (BadRequestException ("Invalid action: " ++ action)).

End TasksController.

(** ** Redis key space and the CacheService facade
    (src/common/services/cache.service.ts) *)
Module Cache.

Record RedisFaults := mkRedisFaults {
  rf_incr : bool;     (** [INCR] rejects *)
  rf_expire : bool;   (** [EXPIRE] rejects *)
  rf_ttl : bool;      (** [TTL] rejects *)
}.

Definition redis_healthy : RedisFaults := mkRedisFaults false false false.

Inductive RedisCmd := INCR (k : string) | EXPIRE (k : string) (s : Z) | TTL (k : string).

Record Redis := mkRedis {
  r_ready : bool;                     (** [client.status === 'ready'] *)
  r_kv : gmap string (Z * option Z);  (** counter and remaining ttl (s) *)
  r_faults : RedisFaults;
  r_cmds : list RedisCmd;             (** commands sent, oldest first *)
}.

Abbreviation RM := (ST Redis).

Definition set_kv (kv : gmap string (Z * option Z)) : RM unit :=
  modify (fun r => mkRedis (r_ready r) kv (r_faults r) (r_cmds r)).

Definition send (c : RedisCmd) : RM unit :=
  modify (fun r => mkRedis (r_ready r) (r_kv r) (r_faults r) (r_cmds r ++ [c])).

(** [INCR key]: a missing key counts from 0; the ttl is kept. *)
Definition redis_incr (k : string) : RM Z :=
  send (INCR k) ;;;
  fl <- gets r_faults ;;
  if rf_incr fl then throw (StoreError "INCR failed") else
  kv <- gets r_kv ;;
  match kv !! k with
  | None => set_kv (<[k := (1, None)]> kv) ;;; ret 1
  | Some (v, t) => set_kv (<[k := (v + 1, t)]> kv) ;;; ret (v + 1)
  end.

(** [EXPIRE key s]: a non-positive [s] deletes the key. *)
Definition redis_expire (k : string) (s : Z) : RM Z :=
  send (EXPIRE k s) ;;;
  fl <- gets r_faults ;;
  if rf_expire fl then throw (StoreError "EXPIRE failed") else
  kv <- gets r_kv ;;
  match kv !! k with
  | None => ret 0
  | Some (v, _) =>
      (if decide (s <= 0) then set_kv (delete k kv)
       else set_kv (<[k := (v, Some s)]> kv)) ;;; ret 1
  end.

(** [TTL key]: -2 for a missing key, -1 for a key without expiry. *)
Definition redis_ttl (k : string) : RM Z :=
  send (TTL k) ;;;
  fl <- gets r_faults ;;
  if rf_ttl fl then throw (StoreError "TTL failed") else
  kv <- gets r_kv ;;
  ret (match kv !! k with
       | None => -2
       | Some (_, None) => -1
       | Some (_, Some t) => t
       end).

Definition isConnected : RM bool := gets r_ready.

Definition buildKey (namespace key : string) : string :=
  namespace ++ ":" ++ key.

(** JavaScript truthiness of an optional number *)
Definition truthy (n : option Z) : option Z :=
  match n with
  | Some t => if decide (t = 0) then None else Some t
  | None => None
  end.

Definition increment (key namespace : string) (ttlSeconds : option Z) : RM Z :=
  c <- isConnected ;;
  if negb c then ret 0 else
  try_catch
    (let cacheKey := buildKey namespace key in
     newValue <- redis_incr cacheKey ;;
     (match truthy ttlSeconds with
      | Some t => if decide (newValue = 1) then redis_expire cacheKey t ;;; ret tt
                  else ret tt
      | None => ret tt
      end) ;;;
     ret newValue)
    (fun _ => ret 0).

Definition getTTL (key namespace : string) : RM Z :=
  c <- isConnected ;;
  if negb c then ret (-2) else
  try_catch (redis_ttl (buildKey namespace key)) (fun _ => ret (-2)).

(** [n] successive calls of [increment], with the values they return. *)
Fixpoint increment_n (n : nat) (key namespace : string) (ttlSeconds : option Z)
    : RM (list Z) :=
  match n with
  | O => ret []
  | S m => v <- increment key namespace ttlSeconds ;;
           vs <- increment_n m key namespace ttlSeconds ;;
           ret (v :: vs)
  end.

End Cache.

(** ** The value operations of CacheService ([set], [get], [delete], [has])
    over the keys they use: each holds a serialized value and its ttl in
    seconds.  The value type and its JSON codec are parameters. *)
Module CacheValues.
Import Cache.

Record ValueFaults := mkValueFaults {
  vf_setex : bool;    (** [SETEX] rejects *)
  vf_get : bool;      (** [GET] rejects *)
  vf_del : bool;      (** [DEL] rejects *)
  vf_exists : bool;   (** [EXISTS] rejects *)
}.

Definition values_healthy : ValueFaults := mkValueFaults false false false false.

Record Store := mkStore {
  s_ready : bool;                      (** [client.status === 'ready'] *)
  s_data : gmap string (string * Z);   (** serialized value and ttl *)
  s_faults : ValueFaults;
}.

Abbreviation SM := (ST Store).

Definition set_data (d : gmap string (string * Z)) : SM unit :=
  modify (fun r => mkStore (s_ready r) d (s_faults r)).

(** [SETEX key s value]: Redis refuses a non-positive [s]
    ("invalid expire time"). *)
Definition redis_setex (k : string) (sec : Z) (v : string) : SM unit :=
  fl <- gets s_faults ;;
  if vf_setex fl then throw (StoreError "SETEX failed") else
  if decide (sec <= 0) then throw (StoreError "invalid expire time in 'setex' command") else
  d <- gets s_data ;; set_data (<[k := (v, sec)]> d).

(** [GET key]: [null] for a missing key *)
Definition redis_get (k : string) : SM (option string) :=
  fl <- gets s_faults ;;
  if vf_get fl then throw (StoreError "GET failed") else
  d <- gets s_data ;; ret (fst <$> d !! k).

(** [DEL key]: the number of keys removed *)
Definition redis_del (k : string) : SM Z :=
  fl <- gets s_faults ;;
  if vf_del fl then throw (StoreError "DEL failed") else
  d <- gets s_data ;;
  match d !! k with
  | Some _ => set_data (delete k d) ;;; ret 1
  | None => ret 0
  end.

(** [EXISTS key] *)
Definition redis_exists (k : string) : SM Z :=
  fl <- gets s_faults ;;
  if vf_exists fl then throw (StoreError "EXISTS failed") else
  d <- gets s_data ;; ret (if decide (is_Some (d !! k)) then 1 else 0).

Definition connected : SM bool := gets s_ready.

Section Values.
Context {V : Type}.
(** [JSON.stringify] *)
Variable stringify : V -> string.
(** [JSON.parse]; [None] where it throws *)
Variable parse : string -> option V.

(** [set(key, value, namespace, ttlSeconds = 300)] *)
Definition set (key : string) (value : V) (namespace : string) (ttlSeconds : option Z)
    : SM unit :=
  let ttl := default 300 ttlSeconds in
  c <- connected ;;
  if negb c then ret tt else
  try_catch
    (let cacheKey := buildKey namespace key in
     let serializedValue := stringify value in
     redis_setex cacheKey ttl serializedValue)
    (fun _ => ret tt).

Definition get (key namespace : string) : SM (option V) :=
  c <- connected ;;
  if negb c then ret None else
  try_catch
    (value <- redis_get (buildKey namespace key) ;;
     match value with
     | None => ret None
     | Some s =>
         if String.eqb s "" then ret None else
         match parse s with
         | Some v => ret (Some v)
         | None => throw (StoreError "Unexpected token in JSON")
         end
     end)
    (fun _ => ret None).
End Values.

Definition delete (key namespace : string) : SM bool :=
  c <- connected ;;
  if negb c then ret false else
  try_catch
    (result <- redis_del (buildKey namespace key) ;; ret (bool_decide (result > 0)))
    (fun _ => ret false).

Definition has (key namespace : string) : SM bool :=
  c <- connected ;;
  if negb c then ret false else
  try_catch
    (result <- redis_exists (buildKey namespace key) ;; ret (bool_decide (result = 1)))
    (fun _ => ret false).

End CacheValues.

(** ** RateLimitGuard (src/unnamed/part_001) *)
Module RateLimitGuard.
Import Cache.

Definition defaultLimit : Z := 100.
Definition defaultWindowMs : Z := 60 * 1000.

(** [Math.ceil(n / d)] for a positive [d] *)
Definition ceil_div (n d : Z) : Z := - ((- n) / d).

(** The request as the guard reads it. *)
Record Request := mkRequest {
  req_ip : option string;
  req_remoteAddress : option string;
  req_x_forwarded_for : option string;
  req_x_real_ip : option string;
}.

(** [a || b] on optional strings: [undefined] and [""] are falsy. *)
Definition or_str (a : option string) (b : string) : string :=
  match a with
  | Some s => if String.eqb s "" then b else s
  | None => b
  end.

Definition is_ws (c : Ascii.ascii) : bool :=
  match Ascii.nat_of_ascii c with
  | 32 | 9 | 10 | 11 | 12 | 13 => true
  | _ => false
  end%nat.

Fixpoint trim_start (s : string) : string :=
  match s with
  | EmptyString => EmptyString
  | String c r => if is_ws c then trim_start r else s
  end.

Fixpoint trim_end (s : string) : string :=
  match s with
  | EmptyString => EmptyString
  | String c r =>
      let r' := trim_end r in
      if is_ws c && String.eqb r' "" then EmptyString else String c r'
  end.

(** [s.trim()] *)
Definition trim (s : string) : string := trim_end (trim_start s).

(** [s.split(',')[0]] *)
Fixpoint split_first (s : string) : string :=
  match s with
  | EmptyString => EmptyString
  | String c r => if Ascii.eqb c (Ascii.ascii_of_nat 44) then EmptyString else String c (split_first r)
  end.

(** [const ip = request.ip || request.connection?.remoteAddress ||
       request.headers['x-forwarded-for']?.split(',')[0]?.trim() ||
       request.headers['x-real-ip'] || 'unknown'] *)
Definition client_ip (r : Request) : string :=
  or_str (req_ip r)
    (or_str (req_remoteAddress r)
       (or_str (option_map (fun h => trim (split_first h)) (req_x_forwarded_for r))
          (or_str (req_x_real_ip r) "unknown"))).

Section Identifier.
(** [createHash('sha256').update(ip).digest('hex')] *)
Variable sha256_hex : string -> string.

Definition getClientIdentifier (r : Request) : string :=
  String.substring 0 16 (sha256_hex (client_ip r)).
End Identifier.

(** The precedence of the identity sources as C7 words it (forwarded-for
    first hop, then real-ip, then the connection address, then
    "unknown"), to be compared with [client_ip]. *)
Definition claimed_client_ip (r : Request) : string :=
  or_str (option_map (fun h => trim (split_first h)) (req_x_forwarded_for r))
    (or_str (req_x_real_ip r)
       (or_str (req_ip r) (or_str (req_remoteAddress r) "unknown"))).

(** The first candidate that is present and non-empty, else "unknown". *)
Fixpoint first_present (cands : list (option string)) : string :=
  match cands with
  | [] => "unknown"
  | Some s :: rest => if String.eqb s "" then first_present rest else s
  | None :: rest => first_present rest
  end.

(** The precedence as the corrected C7 words it: the address the framework
    reports, the socket's remote address, the first forwarded-for hop, the
    real-ip header. *)
Definition stated_client_ip (r : Request) : string :=
  first_present [req_ip r; req_remoteAddress r;
                 option_map (fun h => trim (split_first h)) (req_x_forwarded_for r);
                 req_x_real_ip r].

Definition rate_limit_error : string := "Rate limit exceeded".

Definition handleRateLimit (identifier : string) (limit windowMs now : Z) : RM bool :=
  try_catch
    (let ttlSeconds := ceil_div windowMs 1000 in
     let rateLimitNamespace := "rate_limit" in
     current <- increment identifier rateLimitNamespace (Some ttlSeconds) ;;
     if decide (current > limit) then
       ttl <- getTTL identifier rateLimitNamespace ;;
       let resetTime := if decide (ttl > 0) then now + ttl * 1000 else now + windowMs in
       throw (HttpException (mkRateLimitPayload rate_limit_error limit 0 resetTime))
     else ret true)
    (fun e => match e with
              | HttpException _ => throw e
              | _ => ret true
              end).

(** [options?.limit || this.defaultLimit] *)
Definition or_num (a : option Z) (d : Z) : Z :=
  match a with
  | Some n => if decide (n = 0) then d else n
  | None => d
  end.

Record RateLimitOptions := mkRateLimitOptions {
  opt_limit : option Z;
  opt_windowMs : option Z;
}.

Definition canActivate (sha256_hex : string -> string) (options : option RateLimitOptions)
    (r : Request) (now : Z) : RM bool :=
  let limit := or_num (options ≫= opt_limit) defaultLimit in
  let windowMs := or_num (options ≫= opt_windowMs) defaultWindowMs in
  handleRateLimit (getClientIdentifier sha256_hex r) limit windowMs now.

(** [n] successive admission checks of one identifier; a rejection ends
    the sequence. *)
Fixpoint handle_n (n : nat) (identifier : string) (limit windowMs now : Z) : RM (list bool) :=
  match n with
  | O => ret []
  | S m => b <- handleRateLimit identifier limit windowMs now ;;
           bs <- handle_n m identifier limit windowMs now ;;
           ret (b :: bs)
  end.

End RateLimitGuard.

(** ** Queue constants (src/queues/constants/queue.constants.ts) *)

Definition MAX_RETRIES : Z := 3.
Definition BATCH_SIZE : Z := 100.
Definition MAX_TASKS_PER_RUN : Z := 1000.
(** [QUEUE_JOB_OPTIONS.attempts] *)
Definition QUEUE_JOB_ATTEMPTS : Z := 3.

(** [array.slice(s, e)] with JavaScript's treatment of negative indices *)
Definition js_slice {A} (l : list A) (s e : Z) : list A :=
  let len := Z.of_nat (length l) in
  let rel k := if decide (k < 0) then Z.max (len + k) 0 else Z.min k len in
  let from := rel s in
  let to := rel e in
  firstn (Z.to_nat (to - from)) (skipn (Z.to_nat from) l).

(** ** TaskProcessorService (src/unnamed/part_009) *)
Module TaskProcessor.

Record OverdueResults := mkOverdueResults {
  total : Z;
  processed : Z;
  failed : Z;
  errors : list (string * string);   (** [{ taskId, error }] *)
}.

Inductive JobResult :=
  | StatusUpdated (taskId : string) (newStatus : TaskStatus)
  (** [{ success: results.failed === 0, ...results }] *)
  | OverdueAggregate (success : bool) (results : OverdueResults)
  | NoTaskIds.

Definition status_of_value (s : string) : option TaskStatus :=
  if String.eqb s "PENDING" then Some PENDING
  else if String.eqb s "IN_PROGRESS" then Some IN_PROGRESS
  else if String.eqb s "COMPLETED" then Some COMPLETED
  else None.

(** [!x] on an optional string *)
Definition falsy (x : option string) : bool :=
  match x with Some s => String.eqb s "" | None => true end.

Definition handleStatusUpdate (j : Job) : M JobResult :=
  let '(taskId, st) := match job_data j with
                       | StatusUpdateData t s => (t, s)
                       | _ => (None, None)
                       end in
  if falsy taskId then throw (BadRequestException "Missing required field: taskId") else
  if falsy st then throw (BadRequestException "Missing required field: status") else
  match taskId, st ≫= status_of_value with
  | Some tid, Some s =>
      try_catch
        (task <- TasksService.updateStatus tid s ;;
         ret (StatusUpdated (id task) (status task)))
        (fun e => match e with
                  | NotFoundException _ => log LWarn ;;; throw e
                  | _ => log LError ;;; throw e
                  end)
  | _, _ => throw (BadRequestException ("Invalid status value: " ++ default "" st ++
                                         ". Valid values: " ++ String.concat ", " TaskStatus_values))
  end.

(** The [{ taskId, status }] that [handleStatusUpdate] reads from
    [job.data] *)
Definition status_update_fields (j : Job) : option string * option string :=
  match job_data j with
  | StatusUpdateData t s => (t, s)
  | _ => (None, None)
  end.

Section Batch.
(** The order in which the promises of one batch settle under
    [Promise.all]; each settles once. *)
Variable settle : list string -> list string.

(** One id of a batch: [updateStatus(taskId, PENDING)], counting its outcome
    in the shared [results] object. *)
Definition process_one (res : OverdueResults) (taskId : string) : M OverdueResults :=
  try_catch
    (TasksService.updateStatus taskId PENDING ;;;
     ret (mkOverdueResults (total res) (processed res + 1) (failed res) (errors res)))
    (fun e => log LWarn ;;;
              ret (mkOverdueResults (total res) (processed res) (failed res + 1)
                                    (errors res ++ [(taskId, errorMessage e)]))).

Fixpoint run_batch (res : OverdueResults) (batch : list string) : M OverdueResults :=
  match batch with
  | [] => ret res
  | t :: rest => res' <- process_one res t ;; run_batch res' rest
  end.

(** [for (let i = 0; i < taskIds.length; i += batchSize)]; [None] when the
    loop does not stop within [fuel] iterations. *)
Fixpoint batch_loop (fuel : nat) (taskIds : list string) (batchSize i : Z)
    (res : OverdueResults) : M (option OverdueResults) :=
  match fuel with
  | O => ret None
  | S f =>
      if decide (i < Z.of_nat (length taskIds)) then
        let batch := js_slice taskIds i (i + batchSize) in
        log LDebug ;;;
        res' <- run_batch res (settle batch) ;;
        batch_loop f taskIds batchSize (i + batchSize) res'
      else ret (Some res)
  end.

(** [processOverdueTaskBatch]; [None] stands for a loop that never ends
    (a batch size of at most 0): a positive batch size advances [i] by at
    least one per iteration, so [length + 1] iterations always suffice. *)
Definition processOverdueTaskBatch (taskIds : list string) (batchSize : Z)
    : M (option JobResult) :=
  let results := mkOverdueResults (Z.of_nat (length taskIds)) 0 0 [] in
  r <- batch_loop (S (length taskIds)) taskIds batchSize 0 results ;;
  match r with
  | None => ret None
  | Some res => log LLog ;;; ret (Some (OverdueAggregate (bool_decide (failed res = 0)) res))
  end.

Definition handleOverdueTasks (j : Job) : M (option JobResult) :=
  let '(taskIds, batchSize) :=
    match job_data j with
    | OverdueData ids bs _ => (ids, default 100 bs)
    | _ => (None, 100)
    end in
  log LLog ;;;
  match taskIds with
  | Some ((_ :: _) as ids) => processOverdueTaskBatch ids batchSize
  | _ => log LWarn ;;; ret (Some NoTaskIds)
  end.

(** The [switch (job.name)] of [process] *)
Definition dispatch (j : Job) : M (option JobResult) :=
  if String.eqb (job_name j) "task-status-update" then
    r <- handleStatusUpdate j ;; ret (Some r)
  else if String.eqb (job_name j) "overdue-tasks-notification" then
    handleOverdueTasks j
  else log LWarn ;;; throw (BadRequestException ("Unknown job type: " ++ job_name j)).

Definition shouldRetry (e : Exn) (attemptsMade : Z) : bool :=
  if decide (attemptsMade >= MAX_RETRIES) then false
  else match e with
       | BadRequestException _ | NotFoundException _ => false
       | _ => true
       end.

Definition process (j : Job) (attemptsMade : Z) : M (option JobResult) :=
  log LDebug ;;;
  try_catch
    (r <- dispatch j ;;
     match r with
     | None => ret None
     | Some _ => log LLog ;;; ret r
     end)
    (fun e =>
       log LError ;;;
       if shouldRetry e attemptsMade && bool_decide (attemptsMade < MAX_RETRIES) then
         log LWarn ;;; throw e
       else
         log LError ;;; throw e).

End Batch.

(** BullMQ's rule after an attempt (library behaviour, outside this
    repository): a job whose processor threw is attempted again while the
    attempts made stay below [opts.attempts] (default 1); only an
    [UnrecoverableError], which this code never throws, stops it early. *)
Definition transport_redelivers {A} (j : Job) (attemptsMade : Z) (r : Res A) : bool :=
  match r with
  | Throw _ => bool_decide (attemptsMade + 1 < default 1 (job_attempts j))
  | Ok _ => false
  end.

End TaskProcessor.

(** ** OverdueTasksService (src/queues/scheduled-tasks/overdue-tasks.service.ts) *)
Module OverdueTasks.

Definition due_key (t : Task) : Z := default 0 (dueDate t).

Definition due_le (a b : Task) : Prop := due_key a <= due_key b.
#[global] Instance due_le_dec : RelDecision due_le.
Proof. intros a b. unfold due_le. apply _. Defined.

(** [where('task.dueDate < :now').andWhere('task.dueDate IS NOT NULL')
     .andWhere('task.status != :completedStatus')] *)
Definition eligible (now : Z) (t : Task) : bool :=
  match dueDate t with
  | Some d => bool_decide (d < now) && bool_decide (status t <> COMPLETED)
  | None => false
  end.

(** [... .orderBy('task.dueDate', 'ASC').limit(MAX_TASKS_PER_RUN).getMany()] *)
Definition overdue_query (now : Z) (db : gmap string Task) : list Task :=
  take (Z.to_nat MAX_TASKS_PER_RUN)
    (merge_sort due_le (filter (fun t => eligible now t = true) (map snd (map_to_list db)))).

(** [chunkArray(array, size)] for a positive [size]; [fuel] bounds the
    number of chunks. *)
Fixpoint chunk_aux {A} (fuel : nat) (l : list A) (size : nat) : list (list A) :=
  match fuel with
  | O => []
  | S f => match l with
           | [] => []
           | _ => take size l :: chunk_aux f (drop size l) size
           end
  end.

Definition chunkArray {A} (l : list A) (size : Z) : list (list A) :=
  chunk_aux (length l) l (Z.to_nat size).

Definition batch_job (now : Z) (batch : list string) : Job :=
  mkJob "overdue-tasks-notification"
        (OverdueData (Some batch) (Some BATCH_SIZE) now) (Some QUEUE_JOB_ATTEMPTS).

Fixpoint add_one_by_one (now : Z) (batches : list (list string)) (totalQueued : Z)
    : M Z :=
  match batches with
  | [] => ret totalQueued
  | batch :: rest =>
      q <- try_catch
             (queue_add "overdue-tasks-notification"
                (OverdueData (Some batch) (Some BATCH_SIZE) now) (Some QUEUE_JOB_ATTEMPTS) ;;;
              log LDebug ;;; ret (totalQueued + Z.of_nat (length batch)))
             (fun _ => log LError ;;; ret totalQueued) ;;
      add_one_by_one now rest q
  end.

Definition ceiling_warning : string :=
  "Found overdue tasks but only processed MAX_TASKS_PER_RUN".

(** [queryBuilder.getMany()] on the overdue query *)
Definition getMany_overdue (now : Z) : M (list Task) :=
  fl <- gets w_faults ;;
  if f_query fl then throw (StoreError "query failed") else
  db <- gets w_db ;; ret (overdue_query now db).

Definition checkOverdueTasks (now : Z) : M unit :=
  log LLog ;;;
  try_catch
    (overdueTasks <- getMany_overdue now ;;
     if decide (length overdueTasks = 0%nat) then log LDebug else
     log LLog ;;;
     let batches := chunkArray (map id overdueTasks) BATCH_SIZE in
     totalQueued <-
       try_catch
         (queue_addBulk (map (batch_job now) batches) ;;;
          log LDebug ;;; ret (Z.of_nat (length overdueTasks)))
         (fun _ => log LWarn ;;; add_one_by_one now batches 0) ;;
     log LLog ;;;
     if decide (Z.of_nat (length overdueTasks) > MAX_TASKS_PER_RUN)
     then log_msg LWarn ceiling_warning
     else ret tt)
    (fun e => log LError ;;; throw e).

End OverdueTasks.

(** ** Sample stores used by the concrete statements below *)
Module Samples.

Definition task_a : Task := mkTask "a" "Write report" "" PENDING HIGH (Some 10) "u1".
Definition task_b : Task := mkTask "b" "Review" "" IN_PROGRESS LOW (Some 20) "u1".

(** Only tasks "a" and "b" exist; nothing fails. *)
Definition world_ab : World :=
  mkWorld (<["a" := task_a]> {["b" := task_b]}) None [] [] no_faults "n1".

(** The same store with the queue transport refusing [queue.add]. *)
Definition world_ab_add_down : World :=
  mkWorld (w_db world_ab) None [] [] (mkFaults false false false true false false) "n1".

(** The same store with [commitTransaction] failing. *)
Definition world_ab_commit_down : World :=
  mkWorld (w_db world_ab) None [] [] (mkFaults false true false false false false) "n1".

(** The same store with [manager.update] failing. *)
Definition world_ab_update_down : World :=
  mkWorld (w_db world_ab) None [] [] (mkFaults false false true false false false) "n1".

Definition new_task_dto : CreateTaskDto :=
  mkCreateTaskDto "Plan" "" PENDING MEDIUM None "u1".

Definition complete_dto : UpdateTaskDto :=
  mkUpdateTaskDto None None (Some COMPLETED) None None.

(** The rows two page queries of [findAll] return when their sort column
    ties: the first query and every other one order them differently. *)
Definition page_rows (p : Z) : list Task :=
  if Z.eqb p 1 then [task_a; task_b] else [task_b; task_a].

(** A connected cache store with no values and no faults. *)
Definition store_empty : CacheValues.Store :=
  CacheValues.mkStore true ∅ CacheValues.values_healthy.

(** A connected Redis with an empty key space. *)
Definition redis_empty : Cache.Redis := Cache.mkRedis true ∅ Cache.redis_healthy [].

(** A backlog of [MAX_TASKS_PER_RUN] pending tasks, all due at time 0,
    under the ids "0" .. "999". *)
Definition backlog_task (n : nat) : Task :=
  mkTask (pretty (N.of_nat n)) "Overdue" "" PENDING LOW (Some 0) "u1".

Definition world_backlog : World :=
  mkWorld (list_to_map (map (fun n => (id (backlog_task n), backlog_task n))
                            (seq 0 (Z.to_nat MAX_TASKS_PER_RUN))))
          None [] [] no_faults "n1".

End Samples.

(** * Properties *)

(** Unfolds the monad and the store primitives so that a run computes. *)
Ltac run_monad :=
  repeat (unfold bind, ret, throw, try_catch, try_finally, gets, modify, log, log_msg,
          set_db, set_txn, set_queue, release, startTransaction, txn_rows,
          commitTransaction, rollbackTransaction, manager_save, manager_findOne,
          manager_update_status, repository_findOne, queue_add, queue_addBulk, OverdueTasks.getMany_overdue in *);
  simpl in *.

Module TasksServiceFacts.
Import TasksService.

(** C5: with the commit done, a failing [queue.add] of the notification
    job is swallowed: [create] returns the saved task, the row stays
    committed, and the queue is unchanged. *)
Lemma create_survives_enqueue_failure (dto : CreateTaskDto) (w : World)
    (Hsave : f_save (w_faults w) = false)
    (Hcommit : f_commit (w_faults w) = false)
    (Hadd : f_add (w_faults w) = true) :
  exists t w', create dto w = (Ok t, w') /\
    w_db w' !! id t = Some t /\
    w_queue w' = w_queue w /\
    t = mkTask (w_next_id w) (c_title dto) (c_description dto) (c_status dto)
               (c_priority dto) (c_dueDate dto) (c_userId dto).
Proof.
  destruct w as [db txn q logs [fs fc fu fa fb fq] nid]; simpl in *; subst.
  unfold create; run_monad.
  eexists _, _; split; [reflexivity|]. simpl.
  split; [apply lookup_insert_eq|]. split; reflexivity.
Qed.

Lemma create_survives_enqueue_failure_witness :
  f_save (w_faults Samples.world_ab_add_down) = false /\
  f_commit (w_faults Samples.world_ab_add_down) = false /\
  f_add (w_faults Samples.world_ab_add_down) = true /\
  exists t w', create Samples.new_task_dto Samples.world_ab_add_down = (Ok t, w') /\
    w_db w' !! id t = Some t /\
    w_queue w' = w_queue Samples.world_ab_add_down /\
    t = mkTask (w_next_id Samples.world_ab_add_down) (c_title Samples.new_task_dto)
               (c_description Samples.new_task_dto) (c_status Samples.new_task_dto)
               (c_priority Samples.new_task_dto) (c_dueDate Samples.new_task_dto)
               (c_userId Samples.new_task_dto).
Proof.
  assert (H1 : f_save (w_faults Samples.world_ab_add_down) = false) by reflexivity.
  assert (H2 : f_commit (w_faults Samples.world_ab_add_down) = false) by reflexivity.
  assert (H3 : f_add (w_faults Samples.world_ab_add_down) = true) by reflexivity.
  split; [exact H1|]. split; [exact H2|]. split; [exact H3|].
  exact (create_survives_enqueue_failure Samples.new_task_dto Samples.world_ab_add_down H1 H2 H3).
Defined.

(** C6: on an existing task, a successful [update] enqueues no job when the
    merged status equals the stored one, and exactly one
    ["task-status-update"] job carrying the task id and the new status
    otherwise. *)
Lemma update_notifies_iff_status_changed (i : string) (dto : UpdateTaskDto)
    (w : World) (t : Task)
    (Hrow : w_db w !! i = Some t) (Hid : id t = i) (Hne : i <> "")
    (Hsave : f_save (w_faults w) = false)
    (Hcommit : f_commit (w_faults w) = false)
    (Hadd : f_add (w_faults w) = false) :
  exists w', update i dto w = (Ok (merge t dto), w') /\
    w_queue w' = w_queue w ++
      (if decide (status (merge t dto) = status t) then []
       else [mkJob "task-status-update"
               (StatusUpdateData (Some i) (Some (TaskStatus_value (status (merge t dto)))))
               None]).
Proof.
  destruct w as [db txn q logs [fs fc fu fa fb fq] nid]; simpl in *; subst.
  assert (Heqb : String.eqb (id t) "" = false) by (apply String.eqb_neq; exact Hne).
  unfold update, findOne; run_monad.
  rewrite Hrow. simpl. rewrite Heqb. simpl.
  destruct (decide (status t ≠ default (status t) (u_status dto))) as [Hd|Hd];
    simpl; rewrite lookup_insert_eq; simpl;
    (eexists; split; [reflexivity|]); simpl;
    unfold status_job, merge; simpl;
    destruct (decide (default (status t) (u_status dto) = status t)); simpl;
    try (rewrite app_nil_r); try reflexivity; exfalso; auto.
Qed.

Lemma update_notifies_iff_status_changed_witness :
  w_db Samples.world_ab !! "a" = Some Samples.task_a /\ id Samples.task_a = "a" /\
  "a" <> "" /\
  f_save (w_faults Samples.world_ab) = false /\
  f_commit (w_faults Samples.world_ab) = false /\
  f_add (w_faults Samples.world_ab) = false /\
  exists w', update "a" Samples.complete_dto Samples.world_ab
               = (Ok (merge Samples.task_a Samples.complete_dto), w') /\
    w_queue w' = w_queue Samples.world_ab ++
      (if decide (status (merge Samples.task_a Samples.complete_dto) = status Samples.task_a)
       then []
       else [mkJob "task-status-update"
               (StatusUpdateData (Some "a")
                  (Some (TaskStatus_value (status (merge Samples.task_a Samples.complete_dto)))))
               None]).
Proof.
  assert (Hrow : w_db Samples.world_ab !! "a" = Some Samples.task_a) by reflexivity.
  assert (Hid : id Samples.task_a = "a") by reflexivity.
  assert (Hne : "a" <> "") by discriminate.
  assert (H1 : f_save (w_faults Samples.world_ab) = false) by reflexivity.
  assert (H2 : f_commit (w_faults Samples.world_ab) = false) by reflexivity.
  assert (H3 : f_add (w_faults Samples.world_ab) = false) by reflexivity.
  do 6 (split; [assumption|]).
  exact (update_notifies_iff_status_changed "a" Samples.complete_dto Samples.world_ab
           Samples.task_a Hrow Hid Hne H1 H2 H3).
Defined.

Lemma NoDup_fst_filter (P : string * Task -> Prop) `{!forall x, Decision (P x)}
    (l : list (string * Task)) :
  NoDup l.*1 -> NoDup (filter P l).*1.
Proof.
  induction l as [|[k v] l IH]; simpl; [constructor|].
  intros Hnd. apply NoDup_cons in Hnd as [Hk Hl]. rewrite filter_cons.
  destruct (decide (P (k, v))); simpl; [|auto].
  constructor; [|auto].
  intros Hin. apply Hk. apply list_elem_of_fmap in Hin as [[k' v'] [Hkk Hin]].
  apply list_elem_of_filter in Hin as [_ Hin].
  apply list_elem_of_fmap. exists (k', v'). auto.
Qed.

(** The rows a bulk [update] touches, counted on the map. *)
Lemma hit_length (m : gmap string Task) (ids : list string) :
  length (filter (fun kv : string * Task => kv.1 ∈ ids) (map_to_list m)) =
  size (filter (fun kv : string * Task => kv.1 ∈ ids) m).
Proof.
  rewrite map_filter_alt, <- length_map_to_list.
  apply Permutation_length. symmetry. apply map_to_list_to_map.
  apply NoDup_fst_filter, NoDup_fst_map_to_list.
Qed.

Lemma batchComplete_runs (ids : list string) (w : World)
    (Hupd : f_update (w_faults w) = false)
    (Hcommit : f_commit (w_faults w) = false)
    (Hbulk : f_addBulk (w_faults w) = false)
    (Hne : ids <> []) :
  exists w', batchComplete ids w =
    (Ok (mkBatchResult
           (Z.of_nat (size (filter (fun kv : string * Task => kv.1 ∈ ids) (w_db w))))
           (Z.of_nat (length ids) -
            Z.of_nat (size (filter (fun kv : string * Task => kv.1 ∈ ids) (w_db w))))),
     w') /\
    w_queue w' = w_queue w ++ map completed_job ids.
Proof.
  destruct w as [db txn q logs [fs fc fu fa fb fq] nid]; simpl in *; subst.
  unfold batchComplete; run_monad.
  destruct (decide (0 < length ids)%nat) as [Hl|Hl].
  - simpl. rewrite hit_length. eexists; split; reflexivity.
  - destruct ids; [congruence | simpl in Hl; lia].
Qed.

Lemma hit_size_a_b_missing (m : gmap string Task) (ta tb : Task)
    (Ha : m !! "a" = Some ta) (Hb : m !! "b" = Some tb) (Hm : m !! "missing" = None) :
  size (filter (fun kv : string * Task => kv.1 ∈ ["a"; "b"; "missing"]) m) = 2%nat.
Proof.
  assert (Hf : filter (fun kv : string * Task => kv.1 ∈ ["a"; "b"; "missing"]) m =
               <["a" := ta]> {["b" := tb]}).
  { apply map_eq; intros k.
    destruct (decide (k = "a")) as [->|Hka].
    { rewrite lookup_insert_eq. apply map_lookup_filter_Some. split; [exact Ha|].
      simpl. set_solver. }
    rewrite lookup_insert_ne by congruence.
    destruct (decide (k = "b")) as [->|Hkb].
    { rewrite lookup_singleton_eq. apply map_lookup_filter_Some. split; [exact Hb|].
      simpl. set_solver. }
    rewrite lookup_singleton_ne by congruence.
    apply map_lookup_filter_None.
    destruct (decide (k = "missing")) as [->|Hkm]; [left; exact Hm|].
    right. intros x _. simpl. rewrite !elem_of_cons, elem_of_nil.
    intuition congruence. }
  rewrite Hf, map_size_insert_None by (rewrite lookup_singleton_ne; congruence).
  rewrite map_size_singleton. reflexivity.
Qed.

(** C2 (as the code behaves): with only "a" and "b" stored, [batchComplete]
    on ["a"; "b"; "missing"] reports success 2 and failed 1, and submits one
    notification job per input id, three in all, "missing" included. *)
Lemma batchComplete_a_b_missing (w : World) (ta tb : Task)
    (Ha : w_db w !! "a" = Some ta) (Hb : w_db w !! "b" = Some tb)
    (Hm : w_db w !! "missing" = None)
    (Hupd : f_update (w_faults w) = false)
    (Hcommit : f_commit (w_faults w) = false)
    (Hbulk : f_addBulk (w_faults w) = false) :
  exists w', batchComplete ["a"; "b"; "missing"] w = (Ok (mkBatchResult 2 1), w') /\
    w_queue w' = w_queue w ++
      [completed_job "a"; completed_job "b"; completed_job "missing"].
Proof.
  destruct (batchComplete_runs ["a"; "b"; "missing"] w Hupd Hcommit Hbulk)
    as [w' [Hrun Hq]]; [discriminate|].
  rewrite (hit_size_a_b_missing _ _ _ Ha Hb Hm) in Hrun.
  exists w'. split; [exact Hrun | exact Hq].
Qed.

Lemma batchComplete_a_b_missing_witness :
  Samples.world_ab.(w_db) !! "a" = Some Samples.task_a /\
  Samples.world_ab.(w_db) !! "b" = Some Samples.task_b /\
  Samples.world_ab.(w_db) !! "missing" = None /\
  exists w', batchComplete ["a"; "b"; "missing"] Samples.world_ab =
               (Ok (mkBatchResult 2 1), w') /\
    w_queue w' = w_queue Samples.world_ab ++
      [completed_job "a"; completed_job "b"; completed_job "missing"].
Proof.
  split; [vm_compute; reflexivity|]. split; [vm_compute; reflexivity|].
  split; [vm_compute; reflexivity|].
  apply (batchComplete_a_b_missing Samples.world_ab Samples.task_a Samples.task_b);
    vm_compute; reflexivity.
Defined.

(** C2 as stated fails: on the sample store the run reports 2 and 1 but
    enqueues three jobs, not two. *)
Lemma batchComplete_not_two_jobs :
  ~ (let '(r, w') := batchComplete ["a"; "b"; "missing"] Samples.world_ab in
     r = Ok (mkBatchResult 2 1) /\
     length (w_queue w') = (length (w_queue Samples.world_ab) + 2)%nat).
Proof. vm_compute. intros [_ H]. discriminate H. Qed.

End TasksServiceFacts.

Module CacheFacts.
Import Cache.

Ltac run_redis :=
  repeat (unfold bind, ret, throw, try_catch, gets, modify, set_kv, send,
          redis_incr, redis_expire, redis_ttl, isConnected, increment, getTTL in *);
  simpl in *.

Lemma increment_first (key ns : string) (ttl : option Z)
    (kv : gmap string (Z * option Z)) (cmds : list RedisCmd)
    (Hfresh : kv !! buildKey ns key = None)
    (Httl : forall t, ttl = Some t -> 0 <= t) :
  increment key ns ttl (mkRedis true kv redis_healthy cmds) =
    (Ok 1, mkRedis true (<[buildKey ns key := (1, truthy ttl)]> kv) redis_healthy
             (cmds ++ INCR (buildKey ns key) ::
                match truthy ttl with Some t => [EXPIRE (buildKey ns key) t] | None => [] end)).
Proof.
  run_redis. rewrite Hfresh. simpl.
  destruct ttl as [t|]; simpl.
  - specialize (Httl t eq_refl).
    destruct (decide (t = 0)) as [->|Hz]; simpl.
    + reflexivity.
    + rewrite lookup_insert_eq. simpl.
      destruct (decide (t <= 0)) as [Hle|Hle]; [lia|]. simpl.
      rewrite insert_insert_eq, <- ?app_assoc. reflexivity.
  - reflexivity.
Qed.

Lemma increment_later (key ns : string) (ttl : option Z)
    (kv : gmap string (Z * option Z)) (cmds : list RedisCmd) (v : Z) (e : option Z)
    (Hkey : kv !! buildKey ns key = Some (v, e)) (Hv : 1 <= v) :
  increment key ns ttl (mkRedis true kv redis_healthy cmds) =
    (Ok (v + 1), mkRedis true (<[buildKey ns key := (v + 1, e)]> kv) redis_healthy
                   (cmds ++ [INCR (buildKey ns key)])).
Proof.
  run_redis. rewrite Hkey. simpl.
  destruct (truthy ttl); simpl; [|reflexivity].
  destruct (decide (v + 1 = 1)); [lia|]. reflexivity.
Qed.

Lemma increment_n_later (key ns : string) (ttl : option Z) (m : nat) :
  forall (kv : gmap string (Z * option Z)) (cmds : list RedisCmd) (v : Z) (e : option Z),
    kv !! buildKey ns key = Some (v, e) -> 1 <= v ->
    increment_n m key ns ttl (mkRedis true kv redis_healthy cmds) =
      (Ok (map (fun i => v + Z.of_nat (S i)) (seq 0 m)),
       mkRedis true (<[buildKey ns key := (v + Z.of_nat m, e)]> kv) redis_healthy
         (cmds ++ replicate m (INCR (buildKey ns key)))).
Proof.
  induction m as [|m IH]; intros kv cmds v e Hkey Hv.
  - simpl. rewrite Z.add_0_r, insert_id by exact Hkey. rewrite app_nil_r. reflexivity.
  - simpl increment_n. unfold bind at 1.
    rewrite (increment_later key ns ttl kv cmds v e Hkey Hv).
    unfold bind at 1.
    rewrite (IH _ _ (v + 1) e (lookup_insert_eq _ _ _)) by lia.
    unfold ret. rewrite insert_insert_eq, <- app_assoc. simpl.
    f_equal.
    + rewrite <- seq_shift, map_map.
      assert (Hl : map (fun i : nat => v + 1 + Z.of_nat (S i)) (seq 0 m) =
                   map (fun i : nat => v + Z.of_nat (S (S i))) (seq 0 m))
        by (apply map_ext; intros i; lia).
      rewrite Hl. do 2 f_equal; try lia.
    + do 3 f_equal; try lia.
Qed.

(** C4: from a fresh key on a healthy store, the calls of [increment]
    return 1, 2, ..., N; the only [EXPIRE] sent is the one right after the
    first [INCR] (when a non-zero ttl is given), so later calls never set or
    extend the expiry; the entry ends as N with the ttl of the first call. *)
Lemma increment_counts_from_fresh (key ns : string) (ttl : option Z) (r : Redis)
    (n : nat)
    (Hready : r_ready r = true) (Hhealthy : r_faults r = redis_healthy)
    (Hfresh : r_kv r !! buildKey ns key = None)
    (Httl : forall t, ttl = Some t -> 0 <= t) :
  exists r',
    increment_n (S n) key ns ttl r =
      (Ok (map (fun i => Z.of_nat (S i)) (seq 0 (S n))), r') /\
    r_kv r' = <[buildKey ns key := (Z.of_nat (S n), truthy ttl)]> (r_kv r) /\
    r_cmds r' = r_cmds r ++ INCR (buildKey ns key) ::
                  (match truthy ttl with Some t => [EXPIRE (buildKey ns key) t] | None => [] end)
                  ++ replicate n (INCR (buildKey ns key)).
Proof.
  destruct r as [rd kv fl cmds]; simpl in *; subst.
  simpl increment_n. unfold bind at 1.
  rewrite (increment_first key ns ttl kv cmds Hfresh Httl).
  unfold bind at 1.
  rewrite (increment_n_later key ns ttl n _ _ 1 (truthy ttl) (lookup_insert_eq _ _ _))
    by lia.
  unfold ret. eexists. split; [|split].
  - f_equal. f_equal. simpl. f_equal.
    rewrite <- seq_shift, map_map. apply map_ext. intros i. lia.
  - simpl. rewrite insert_insert_eq. f_equal. f_equal. lia.
  - simpl. rewrite <- !app_assoc. reflexivity.
Qed.

Lemma increment_counts_from_fresh_witness :
  r_ready Samples.redis_empty = true /\ r_faults Samples.redis_empty = redis_healthy /\
  r_kv Samples.redis_empty !! buildKey "rate_limit" "h" = None /\
  (forall t, Some 60 = Some t -> 0 <= t) /\
  exists r',
    increment_n (S 4) "h" "rate_limit" (Some 60) Samples.redis_empty =
      (Ok (map (fun i => Z.of_nat (S i)) (seq 0 (S 4))), r') /\
    r_kv r' = <[buildKey "rate_limit" "h" := (Z.of_nat (S 4), truthy (Some 60))]>
                (r_kv Samples.redis_empty) /\
    r_cmds r' = r_cmds Samples.redis_empty ++ INCR (buildKey "rate_limit" "h") ::
                  (match truthy (Some 60) with
                   | Some t => [EXPIRE (buildKey "rate_limit" "h") t]
                   | None => [] end)
                  ++ replicate 4 (INCR (buildKey "rate_limit" "h")).
Proof.
  assert (H1 : r_ready Samples.redis_empty = true) by reflexivity.
  assert (H2 : r_faults Samples.redis_empty = redis_healthy) by reflexivity.
  assert (H3 : r_kv Samples.redis_empty !! buildKey "rate_limit" "h" = None) by reflexivity.
  assert (H4 : forall t, Some 60 = Some t -> 0 <= t) by (intros t Ht; injection Ht; lia).
  do 4 (split; [assumption|]).
  exact (increment_counts_from_fresh "h" "rate_limit" (Some 60) Samples.redis_empty 4
           H1 H2 H3 H4).
Defined.

End CacheFacts.

Module RateLimitFacts.
Import Cache RateLimitGuard CacheFacts.

Lemma handle_admit (identifier : string) (limit windowMs now : Z) (r r' : Redis) (c : Z)
    (Hinc : increment identifier "rate_limit" (Some (ceil_div windowMs 1000)) r = (Ok c, r'))
    (Hc : c <= limit) :
  handleRateLimit identifier limit windowMs now r = (Ok true, r').
Proof.
  unfold handleRateLimit, try_catch, bind at 1. rewrite Hinc.
  destruct (decide (c > limit)); [lia|reflexivity].
Qed.

Lemma handle_reject (identifier : string) (limit windowMs now : Z) (r r' r'' : Redis)
    (c ttl : Z)
    (Hinc : increment identifier "rate_limit" (Some (ceil_div windowMs 1000)) r = (Ok c, r'))
    (Hc : c > limit)
    (Httl : getTTL identifier "rate_limit" r' = (Ok ttl, r'')) :
  handleRateLimit identifier limit windowMs now r =
    (Throw (HttpException (mkRateLimitPayload rate_limit_error limit 0
       (if decide (ttl > 0) then now + ttl * 1000 else now + windowMs))), r'').
Proof.
  unfold handleRateLimit, try_catch, bind at 1. rewrite Hinc.
  destruct (decide (c > limit)); [|lia].
  unfold bind. rewrite Httl. reflexivity.
Qed.

(** [increment] and [getTTL] always return a value. *)
Lemma increment_returns (key ns : string) (ttl : option Z) (r : Redis) :
  exists c r', increment key ns ttl r = (Ok c, r').
Proof.
  destruct r as [rd kv [fi fe ft] cmds].
  run_redis. destruct rd; simpl; [|eauto].
  destruct fi; simpl; [eauto|].
  destruct (kv !! buildKey ns key) as [[v e]|]; simpl;
    destruct (truthy ttl); simpl; eauto;
    repeat (case_decide || case_match); simpl; eauto.
Qed.

Lemma getTTL_returns (key ns : string) (r : Redis) :
  exists t r', getTTL key ns r = (Ok t, r').
Proof.
  destruct r as [rd kv [fi fe ft] cmds].
  run_redis. destruct rd; simpl; [|eauto]. destruct ft; simpl; eauto.
Qed.

Lemma handle_n_S (m : nat) (identifier : string) (limit windowMs now : Z) (r : Redis) :
  handle_n (S m) identifier limit windowMs now r =
    match handleRateLimit identifier limit windowMs now r with
    | (Ok b, r') =>
        match handle_n m identifier limit windowMs now r' with
        | (Ok bs, r'') => (Ok (b :: bs), r'')
        | (Throw e, r'') => (Throw e, r'')
        end
    | (Throw e, r') => (Throw e, r')
    end.
Proof.
  simpl. unfold bind, ret.
  destruct (handleRateLimit identifier limit windowMs now r) as [[b|e] r']; [|reflexivity].
  destruct (handle_n m identifier limit windowMs now r') as [[bs|e] r'']; reflexivity.
Qed.

Lemma handle_n_under_limit (identifier : string) (limit windowMs now : Z) (m : nat) :
  forall (kv : gmap string (Z * option Z)) (cmds : list RedisCmd) (v : Z) (e : option Z),
    kv !! buildKey "rate_limit" identifier = Some (v, e) -> 1 <= v ->
    v + Z.of_nat m <= limit ->
    exists cmds',
      handle_n m identifier limit windowMs now (mkRedis true kv redis_healthy cmds) =
        (Ok (replicate m true),
         mkRedis true (<[buildKey "rate_limit" identifier := (v + Z.of_nat m, e)]> kv)
                 redis_healthy cmds').
Proof.
  induction m as [|m IH]; intros kv cmds v e Hk Hv Hlim.
  - exists cmds. simpl. rewrite Z.add_0_r, insert_id by exact Hk. reflexivity.
  - rewrite handle_n_S.
    rewrite (handle_admit identifier limit windowMs now _ _ (v + 1)
               (increment_later identifier "rate_limit" _ kv cmds v e Hk Hv)) by lia.
    destruct (IH (<[buildKey "rate_limit" identifier := (v + 1, e)]> kv)
                 (cmds ++ [INCR (buildKey "rate_limit" identifier)]) (v + 1) e)
      as [cmds' Hrun]; [apply lookup_insert_eq | lia | lia |].
    rewrite Hrun, insert_insert_eq. exists cmds'. replace (v + Z.of_nat (S m)) with (v + 1 + Z.of_nat m) by lia. reflexivity.
Qed.

(** C3: with limit 5 and a 60 s window, five checks of one fresh identifier
    are admitted and the sixth is rejected with limit 5, remaining 0 and a
    reset time taken from the counter's remaining ttl (60 s), which lies in
    the future. *)
Lemma five_admitted_sixth_rejected (identifier : string) (now0 now : Z) (r : Redis)
    (Hready : r_ready r = true) (Hhealthy : r_faults r = redis_healthy)
    (Hfresh : r_kv r !! buildKey "rate_limit" identifier = None) :
  exists r5 r6 p,
    handle_n 5 identifier 5 60000 now0 r = (Ok [true; true; true; true; true], r5) /\
    handleRateLimit identifier 5 60000 now r5 = (Throw (HttpException p), r6) /\
    rl_error p = "Rate limit exceeded" /\ rl_limit p = 5 /\ rl_remaining p = 0 /\
    r_kv r5 !! buildKey "rate_limit" identifier = Some (5, Some 60) /\
    rl_resetAt p = now + 60 * 1000 /\ now < rl_resetAt p.
Proof.
  destruct r as [rd kv fl cmds]; simpl in Hready, Hhealthy, Hfresh; subst.
  set (k := buildKey "rate_limit" identifier).
  assert (Hc : ceil_div 60000 1000 = 60) by reflexivity.
  assert (H1 := increment_first identifier "rate_limit" (Some 60) kv cmds Hfresh).
  simpl truthy in H1. specialize (H1 ltac:(intros t Ht; injection Ht; lia)).
  assert (H1' : increment identifier "rate_limit" (Some (ceil_div 60000 1000))
                  (mkRedis true kv redis_healthy cmds) =
                (Ok 1, mkRedis true (<[k := (1, Some 60)]> kv) redis_healthy
                         (cmds ++ [INCR k; EXPIRE k 60]))) by exact H1.
  rewrite handle_n_S, (handle_admit identifier 5 60000 now0 _ _ _ H1' ltac:(lia)).
  destruct (handle_n_under_limit identifier 5 60000 now0 4
              (<[k := (1, Some 60)]> kv) (cmds ++ [INCR k; EXPIRE k 60]) 1 (Some 60)
              (lookup_insert_eq _ _ _))
    as [cmds4 H4]; [lia | simpl; lia |].
  rewrite H4, insert_insert_eq. replace (1 + Z.of_nat 4) with 5 by lia.
  assert (H6 := increment_later identifier "rate_limit" (Some (ceil_div 60000 1000))
                  (<[k := (5, Some 60)]> kv) cmds4 5 (Some 60) (lookup_insert_eq _ _ _)).
  specialize (H6 ltac:(lia)).
  assert (Ht : getTTL identifier "rate_limit"
                 (mkRedis true (<[k := (5 + 1, Some 60)]> (<[k := (5, Some 60)]> kv))
                          redis_healthy (cmds4 ++ [INCR k])) =
               (Ok 60, mkRedis true (<[k := (5 + 1, Some 60)]> (<[k := (5, Some 60)]> kv))
                          redis_healthy (cmds4 ++ [INCR k] ++ [TTL k]))).
  { run_redis. rewrite lookup_insert_eq. rewrite <- app_assoc. reflexivity. }
  eexists _, _, _. split; [reflexivity|].
  rewrite (handle_reject identifier 5 60000 now _ _ _ _ 60 H6 ltac:(lia) Ht).
  split; [reflexivity|]. simpl.
  split; [reflexivity|]. split; [reflexivity|]. split; [reflexivity|].
  split; [apply lookup_insert_eq|]. split; lia.
Qed.

Lemma five_admitted_sixth_rejected_witness :
  r_ready Samples.redis_empty = true /\ r_faults Samples.redis_empty = redis_healthy /\
  r_kv Samples.redis_empty !! buildKey "rate_limit" "h" = None /\
  exists r5 r6 p,
    handle_n 5 "h" 5 60000 0 Samples.redis_empty = (Ok [true; true; true; true; true], r5) /\
    handleRateLimit "h" 5 60000 1000 r5 = (Throw (HttpException p), r6) /\
    rl_error p = "Rate limit exceeded" /\ rl_limit p = 5 /\ rl_remaining p = 0 /\
    r_kv r5 !! buildKey "rate_limit" "h" = Some (5, Some 60) /\
    rl_resetAt p = 1000 + 60 * 1000 /\ 1000 < rl_resetAt p.
Proof.
  assert (H1 : r_ready Samples.redis_empty = true) by reflexivity.
  assert (H2 : r_faults Samples.redis_empty = redis_healthy) by reflexivity.
  assert (H3 : r_kv Samples.redis_empty !! buildKey "rate_limit" "h" = None) by reflexivity.
  do 3 (split; [assumption|]).
  exact (five_admitted_sixth_rejected "h" 0 1000 Samples.redis_empty H1 H2 H3).
Defined.

Lemma increment_down (key ns : string) (ttl : option Z) (r : Redis)
    (Hdown : r_ready r = false \/ rf_incr (r_faults r) = true) :
  exists r', increment key ns ttl r = (Ok 0, r').
Proof.
  destruct r as [rd kv [fi fe ft] cmds]; simpl in Hdown.
  run_redis. destruct rd; simpl; [|eauto].
  destruct Hdown as [Hd|Hd]; [discriminate|subst]. simpl. eauto.
Qed.

Lemma increment_expire_fails (key ns : string) (t : Z) (r : Redis)
    (Hready : r_ready r = true) (Hincr : rf_incr (r_faults r) = false)
    (Hexp : rf_expire (r_faults r) = true)
    (Hfresh : r_kv r !! buildKey ns key = None) (Ht : t <> 0) :
  exists r', increment key ns (Some t) r = (Ok 0, r').
Proof.
  destruct r as [rd kv [fi fe ft] cmds]; simpl in *; subst.
  run_redis. rewrite Hfresh. simpl.
  destruct (decide (t = 0)); [congruence|]. simpl. eauto.
Qed.

Lemma increment_existing (key ns : string) (ttl : option Z) (r : Redis) (v : Z) (e : option Z)
    (Hready : r_ready r = true) (Hincr : rf_incr (r_faults r) = false)
    (Hkey : r_kv r !! buildKey ns key = Some (v, e)) (Hv : 1 <= v) :
  exists r', increment key ns ttl r = (Ok (v + 1), r') /\ r_faults r' = r_faults r /\
    r_ready r' = true.
Proof.
  destruct r as [rd kv [fi fe ft] cmds]; simpl in *; subst.
  run_redis. rewrite Hkey. simpl.
  destruct (truthy ttl); simpl; [|eauto].
  destruct (decide (v + 1 = 1)); [lia|]. simpl. eauto.
Qed.

Lemma getTTL_fails (key ns : string) (r : Redis)
    (Hready : r_ready r = true) (Httl : rf_ttl (r_faults r) = true) :
  exists r', getTTL key ns r = (Ok (-2), r').
Proof.
  destruct r as [rd kv [fi fe ft] cmds]; simpl in *; subst.
  run_redis. eauto.
Qed.

(** C8: the guard fails open.  A disconnected store or a failing [INCR],
    and a failing [EXPIRE] at window start, admit the request; a failing
    [TTL] once the count is over the limit still gives the capacity
    rejection, reset at [now + windowMs]; and no other error ever leaves
    the check. *)
Lemma rate_limit_fails_open (identifier : string) (limit windowMs now : Z)
    (Hlim : 0 <= limit) :
  (forall r, r_ready r = false \/ rf_incr (r_faults r) = true ->
     fst (handleRateLimit identifier limit windowMs now r) = Ok true) /\
  (forall r, r_ready r = true -> rf_incr (r_faults r) = false ->
     rf_expire (r_faults r) = true ->
     r_kv r !! buildKey "rate_limit" identifier = None -> 0 < windowMs ->
     fst (handleRateLimit identifier limit windowMs now r) = Ok true) /\
  (forall r v e, r_ready r = true -> rf_incr (r_faults r) = false ->
     rf_ttl (r_faults r) = true ->
     r_kv r !! buildKey "rate_limit" identifier = Some (v, e) -> 1 <= v -> v + 1 > limit ->
     fst (handleRateLimit identifier limit windowMs now r) =
       Throw (HttpException (mkRateLimitPayload rate_limit_error limit 0 (now + windowMs)))) /\
  (forall r, match fst (handleRateLimit identifier limit windowMs now r) with
             | Ok b => b = true
             | Throw e => exists t, e = HttpException (mkRateLimitPayload rate_limit_error limit 0 t)
             end).
Proof.
  split; [|split; [|split]].
  - intros r Hdown.
    destruct (increment_down identifier "rate_limit" (Some (ceil_div windowMs 1000)) r Hdown)
      as [r' Hinc].
    rewrite (handle_admit _ _ _ _ _ _ _ Hinc Hlim). reflexivity.
  - intros r Hready Hincr Hexp Hfresh Hw.
    assert (Hpos : ceil_div windowMs 1000 <> 0).
    { unfold ceil_div. intros Hz.
      assert (Hq : - windowMs / 1000 < 0) by (apply Z.div_lt_upper_bound; lia). lia. }
    destruct (increment_expire_fails identifier "rate_limit" _ r Hready Hincr Hexp Hfresh Hpos)
      as [r' Hinc].
    rewrite (handle_admit _ _ _ _ _ _ _ Hinc Hlim). reflexivity.
  - intros r v e Hready Hincr Httl Hkey Hv Hover.
    destruct (increment_existing identifier "rate_limit" (Some (ceil_div windowMs 1000))
                r v e Hready Hincr Hkey Hv) as [r' [Hinc [Hf Hready']]].
    destruct (getTTL_fails identifier "rate_limit" r' Hready' ltac:(rewrite Hf; exact Httl))
      as [r'' Ht].
    rewrite (handle_reject _ _ _ _ _ _ _ _ _ Hinc Hover Ht). reflexivity.
  - intros r.
    destruct (increment_returns identifier "rate_limit" (Some (ceil_div windowMs 1000)) r)
      as [c [r' Hinc]].
    destruct (decide (c > limit)) as [Hover|Hunder].
    + destruct (getTTL_returns identifier "rate_limit" r') as [t [r'' Ht]].
      rewrite (handle_reject _ _ _ _ _ _ _ _ _ Hinc Hover Ht). simpl. eauto.
    + rewrite (handle_admit identifier limit windowMs now _ _ _ Hinc ltac:(lia)). reflexivity.
Qed.

Lemma rate_limit_fails_open_witness :
  0 <= 5 /\
  (forall r, r_ready r = false \/ rf_incr (r_faults r) = true ->
     fst (handleRateLimit "h" 5 60000 0 r) = Ok true) /\
  (forall r, r_ready r = true -> rf_incr (r_faults r) = false ->
     rf_expire (r_faults r) = true ->
     r_kv r !! buildKey "rate_limit" "h" = None -> 0 < 60000 ->
     fst (handleRateLimit "h" 5 60000 0 r) = Ok true) /\
  (forall r v e, r_ready r = true -> rf_incr (r_faults r) = false ->
     rf_ttl (r_faults r) = true ->
     r_kv r !! buildKey "rate_limit" "h" = Some (v, e) -> 1 <= v -> v + 1 > 5 ->
     fst (handleRateLimit "h" 5 60000 0 r) =
       Throw (HttpException (mkRateLimitPayload rate_limit_error 5 0 (0 + 60000)))) /\
  (forall r, match fst (handleRateLimit "h" 5 60000 0 r) with
             | Ok b => b = true
             | Throw e => exists t, e = HttpException (mkRateLimitPayload rate_limit_error 5 0 t)
             end).
Proof.
  assert (Hlim : 0 <= 5) by lia.
  split; [exact Hlim|].
  exact (rate_limit_fails_open "h" 5 60000 0 Hlim).
Defined.

End RateLimitFacts.

Module ProcessorFacts.
Import TaskProcessor.

(** C1 (failing input): a job whose name matches no handler is classified
    non-retryable by [shouldRetry], yet [process] rethrows the very same
    [BadRequestException]; with the [attempts: 3] of [QUEUE_JOB_OPTIONS]
    and attempts left, the transport therefore delivers the job again. *)
Lemma unknown_job_is_redelivered (settle : list string -> list string) (name : string)
    (d : JobData) (attemptsMade : Z) (w : World)
    (Hn1 : name <> "task-status-update") (Hn2 : name <> "overdue-tasks-notification")
    (Ha : 0 <= attemptsMade < QUEUE_JOB_ATTEMPTS - 1) :
  let j := mkJob name d (Some QUEUE_JOB_ATTEMPTS) in
  exists w', process settle j attemptsMade w
               = (Throw (BadRequestException ("Unknown job type: " ++ name)), w') /\
             shouldRetry (BadRequestException ("Unknown job type: " ++ name)) attemptsMade = false /\
             transport_redelivers j attemptsMade
               (Throw (A := option JobResult) (BadRequestException ("Unknown job type: " ++ name))) = true.
Proof.
  intros j. unfold process, dispatch, j. simpl job_name.
  apply String.eqb_neq in Hn1, Hn2. rewrite Hn1, Hn2.
  run_monad. unfold shouldRetry, MAX_RETRIES.
  unfold QUEUE_JOB_ATTEMPTS in Ha.
  destruct (decide (attemptsMade >= 3)); [lia|]. simpl.
  eexists. split; [reflexivity|]. split; [reflexivity|].
  unfold transport_redelivers. simpl. apply bool_decide_eq_true.
  unfold QUEUE_JOB_ATTEMPTS in *. lia.
Qed.

Lemma unknown_job_is_redelivered_witness :
  "unknown-type" <> "task-status-update" /\
  "unknown-type" <> "overdue-tasks-notification" /\
  0 <= 0 < QUEUE_JOB_ATTEMPTS - 1 /\
  let j := mkJob "unknown-type" OtherData (Some QUEUE_JOB_ATTEMPTS) in
  exists w', process (fun l => l) j 0 Samples.world_ab
               = (Throw (BadRequestException ("Unknown job type: " ++ "unknown-type")), w') /\
             shouldRetry (BadRequestException ("Unknown job type: " ++ "unknown-type")) 0 = false /\
             transport_redelivers j 0
               (Throw (A := option JobResult) (BadRequestException ("Unknown job type: " ++ "unknown-type"))) = true.
Proof.
  assert (Hn1 : "unknown-type" <> "task-status-update") by discriminate.
  assert (Hn2 : "unknown-type" <> "overdue-tasks-notification") by discriminate.
  assert (Ha : 0 <= 0 < QUEUE_JOB_ATTEMPTS - 1) by (unfold QUEUE_JOB_ATTEMPTS; lia).
  split; [exact Hn1|]. split; [exact Hn2|]. split; [exact Ha|].
  exact (unknown_job_is_redelivered (fun l => l) "unknown-type" OtherData 0 Samples.world_ab
           Hn1 Hn2 Ha).
Defined.

End ProcessorFacts.

Module IdentifierFacts.
Import RateLimitGuard.

Lemma substring_0_length (n : nat) (s : string) :
  String.length (String.substring 0 n s) = Nat.min n (String.length s).
Proof.
  revert n. induction s as [|c s IH]; intros [|n]; simpl; try reflexivity.
  rewrite IH. reflexivity.
Qed.

(** C7 (corrected): the raw address is taken from [request.ip], else the
    socket's remote address, else the first forwarded-for hop, else the
    real-ip header, else "unknown" (absent or empty values are skipped);
    the identifier is the hex digest of that address cut to its first 16
    characters. *)
Lemma client_identifier_precedence (sha256_hex : string -> string) (r : Request) :
  getClientIdentifier sha256_hex r = String.substring 0 16 (sha256_hex (stated_client_ip r)) /\
  String.length (getClientIdentifier sha256_hex r)
    = Nat.min 16 (String.length (sha256_hex (stated_client_ip r))).
Proof.
  assert (Hip : client_ip r = stated_client_ip r).
  { unfold client_ip, stated_client_ip, or_str. simpl.
    destruct (req_ip r) as [a|]; [destruct (String.eqb a "")|];
    (destruct (req_remoteAddress r) as [b|]; [destruct (String.eqb b "")|]);
    (destruct (req_x_forwarded_for r) as [c|];
       [simpl; destruct (String.eqb (trim (split_first c)) "")|]);
    (destruct (req_x_real_ip r) as [e|]; [destruct (String.eqb e "")|]);
    reflexivity. }
  unfold getClientIdentifier. rewrite Hip. split; [reflexivity|].
  apply substring_0_length.
Qed.

(** C7 (counterexample): behind a proxy that sets both [request.ip] and
    [x-forwarded-for], the identifier comes from [request.ip], not from the
    forwarded-for hop. *)
Lemma forwarded_for_not_first :
  ~ (forall (sha256_hex : string -> string) (r : Request),
       getClientIdentifier sha256_hex r
         = String.substring 0 16 (sha256_hex (claimed_client_ip r))).
Proof.
  intros H.
  specialize (H (fun s => s)
                (mkRequest (Some "10.0.0.5") None (Some "203.0.113.1, 198.51.100.1") None)).
  vm_compute in H. discriminate H.
Qed.

End IdentifierFacts.

Module OverdueFacts.
Import OverdueTasks.

Lemma add_one_by_one_no_ceiling (now : Z) (batches : list (list string)) (q : Z) (w : World) :
  (LWarn, ceiling_warning) ∈ w_logs (snd (add_one_by_one now batches q w)) ->
  (LWarn, ceiling_warning) ∈ w_logs w.
Proof.
  revert q w. induction batches as [|b bs IH]; intros q w H; simpl in H; [exact H|].
  run_monad.
  destruct (f_add (w_faults w)); simpl in H; apply IH in H; simpl in H;
    rewrite elem_of_app, list_elem_of_singleton in H;
    destruct H as [H|H]; [exact H| inversion H| exact H | inversion H].
Qed.

Lemma check_no_ceiling (now : Z) (w : World) :
  (LWarn, ceiling_warning) ∈ w_logs (snd (checkOverdueTasks now w)) ->
  (LWarn, ceiling_warning) ∈ w_logs w.
Proof.
  assert (Hlen : ¬ (Z.of_nat (length (overdue_query now (w_db w))) > MAX_TASKS_PER_RUN)).
  { unfold overdue_query, MAX_TASKS_PER_RUN. rewrite length_take. lia. }
  unfold checkOverdueTasks. run_monad.
  destruct (f_query (w_faults w)); simpl; [|rewrite (decide_False _ _ Hlen)].
  all: intros H.
  all: repeat match goal with
  | H : context [match ?x with _ => _ end] |- _ => let E := fresh "E" in destruct x eqn:E
  end.
  all: simpl in *.
  all: repeat match goal with
         | E : (_, _) = (_, _) |- _ => injection E; clear E; intros; subst
         end.
  all: repeat match goal with
         | E : add_one_by_one ?n ?b ?q ?w1 = _ |- _ =>
             let L := fresh "L" in
             pose proof (add_one_by_one_no_ceiling n b q w1) as L; rewrite E in L; simpl in L;
             clear E
       end.
  all: cbn [w_logs] in *.
  all: repeat match goal with
         | H : _ ∈ _ ++ _ |- _ => apply elem_of_app in H as [H|H]
         | H : _ ∈ [_] |- _ => apply list_elem_of_singleton in H;
                               unfold ceiling_warning in H; discriminate H
         | H : _ ∈ _, L : _ ∈ _ -> _ |- _ => apply L in H
         end.
  all: assumption.
Qed.

Lemma overdue_query_at_ceiling (now : Z) (db : gmap string Task)
    (Hreach : (Z.to_nat MAX_TASKS_PER_RUN
               <= length (filter (fun t => eligible now t = true) (map snd (map_to_list db))))%nat) :
  length (overdue_query now db) = Z.to_nat MAX_TASKS_PER_RUN.
Proof.
  unfold overdue_query. rewrite length_take.
  rewrite (Permutation_length (merge_sort_Permutation due_le _)). lia.
Qed.

(** C9 (failing input): when the eligible overdue tasks reach the per-run
    ceiling, the query returns exactly [MAX_TASKS_PER_RUN] of them, so
    backlog may remain, yet the run adds no ceiling warning to the log: the
    warning is guarded by [overdueTasks.length > MAX_TASKS_PER_RUN], which
    the [.limit(MAX_TASKS_PER_RUN)] of the query makes false. *)
Lemma ceiling_hit_without_warning (now : Z) (w : World)
    (Hreach : (Z.to_nat MAX_TASKS_PER_RUN
               <= length (filter (fun t => eligible now t = true)
                                 (map snd (map_to_list (w_db w)))))%nat)
    (Hfresh : (LWarn, ceiling_warning) ∉ w_logs w) :
  length (overdue_query now (w_db w)) = Z.to_nat MAX_TASKS_PER_RUN /\
  (LWarn, ceiling_warning) ∉ w_logs (snd (checkOverdueTasks now w)).
Proof.
  split.
  - apply overdue_query_at_ceiling. exact Hreach.
  - intros H. apply Hfresh, (check_no_ceiling now w H).
Qed.

Lemma ceiling_hit_without_warning_witness :
  (Z.to_nat MAX_TASKS_PER_RUN
   <= length (filter (fun t => eligible 1 t = true)
                     (map snd (map_to_list (w_db Samples.world_backlog)))))%nat /\
  ((LWarn, ceiling_warning) ∉ w_logs Samples.world_backlog) /\
  length (overdue_query 1 (w_db Samples.world_backlog)) = Z.to_nat MAX_TASKS_PER_RUN /\
  (LWarn, ceiling_warning) ∉ w_logs (snd (checkOverdueTasks 1 Samples.world_backlog)).
Proof.
  assert (Hreach : (Z.to_nat MAX_TASKS_PER_RUN
                    <= length (filter (fun t => eligible 1 t = true)
                                      (map snd (map_to_list (w_db Samples.world_backlog)))))%nat).
  { apply Nat.leb_le. vm_compute. reflexivity. }
  assert (Hfresh : (LWarn, ceiling_warning) ∉ w_logs Samples.world_backlog).
  { simpl. apply not_elem_of_nil. }
  split; [exact Hreach|]. split; [exact Hfresh|].
  exact (ceiling_hit_without_warning 1 Samples.world_backlog Hreach Hfresh).
Defined.

End OverdueFacts.

Module BatchFacts.
Import TaskProcessor.

Section Batch.
Variable settle : list string -> list string.

Lemma process_one_counts (res : OverdueResults) (t : string) (w : World) :
  exists res' w' E,
    process_one res t w = (Ok res', w') /\
    total res' = total res /\
    processed res' + failed res' = processed res + failed res + 1 /\
    errors res' = errors res ++ E /\ map fst E ⊆+ [t] /\
    Z.of_nat (length E) = failed res' - failed res.
Proof.
  unfold process_one, try_catch, bind, ret, log, log_msg, modify.
  destruct (TasksService.updateStatus t PENDING w) as [[x|e] w1]; simpl.
  - exists (mkOverdueResults (total res) (processed res + 1) (failed res) (errors res)), w1, [].
    split; [reflexivity|]. simpl. rewrite app_nil_r.
    repeat split; try lia. apply submseteq_nil_l.
  - do 3 eexists. split; [reflexivity|]. simpl.
    repeat split; try lia; simpl; [reflexivity|lia].
Qed.

Lemma run_batch_counts (batch : list string) (res : OverdueResults) (w : World) :
  exists res' w' E,
    run_batch res batch w = (Ok res', w') /\
    total res' = total res /\
    processed res' + failed res' = processed res + failed res + Z.of_nat (length batch) /\
    errors res' = errors res ++ E /\ map fst E ⊆+ batch /\
    Z.of_nat (length E) = failed res' - failed res.
Proof.
  revert res w. induction batch as [|t rest IH]; intros res w; simpl.
  - exists res, w, []. unfold ret. repeat split; try lia.
    + rewrite app_nil_r. reflexivity.
    + apply submseteq_nil_l.
    + simpl. lia.
  - destruct (process_one_counts res t w) as (r1 & w1 & E1 & H1 & Ht1 & Hc1 & He1 & Hs1 & Hl1).
    destruct (IH r1 w1) as (r2 & w2 & E2 & H2 & Ht2 & Hc2 & He2 & Hs2 & Hl2).
    exists r2, w2, (E1 ++ E2). unfold bind at 1. rewrite H1, H2.
    repeat split; try lia.
    + rewrite He2, He1, app_assoc. reflexivity.
    + rewrite map_app. change (t :: rest) with ([t] ++ rest). apply submseteq_app; assumption.
    + rewrite length_app. lia.
Qed.

Lemma js_slice_step (l : list string) (i bs : Z) (Hi : 0 <= i) (Hbs : 0 < bs)
    (Hlt : i < Z.of_nat (length l)) :
  js_slice l i (i + bs) ++ drop (Z.to_nat (i + bs)) l = drop (Z.to_nat i) l.
Proof.
  unfold js_slice.
  rewrite (decide_False (P := i < 0)) by lia.
  rewrite (decide_False (P := i + bs < 0)) by lia.
  rewrite (Z.min_l i) by lia.
  set (n := Z.to_nat i). set (k := Z.to_nat bs).
  replace (Z.to_nat (Z.min (i + bs) (Z.of_nat (length l)) - i))
    with (Nat.min (n + k) (length l) - n)%nat by (unfold n, k; lia).
  replace (Z.to_nat (i + bs)) with (n + k)%nat by (unfold n, k; lia).
  rewrite <- (take_drop (Nat.min (n + k) (length l) - n) (drop n l)) at 2.
  f_equal. rewrite drop_drop.
  destruct (decide (n + k <= length l)%nat).
  - f_equal. lia.
  - rewrite !drop_ge by lia. reflexivity.
Qed.

Lemma batch_loop_counts (Hsettle : forall l, settle l ≡ₚ l) (ids : list string) (bs : Z)
    (Hbs : 0 < bs) :
  forall fuel i res w, 0 <= i -> (length ids - Z.to_nat i < fuel)%nat ->
  exists res' w' E,
    batch_loop settle fuel ids bs i res w = (Ok (Some res'), w') /\
    total res' = total res /\
    processed res' + failed res'
      = processed res + failed res + Z.of_nat (length (drop (Z.to_nat i) ids)) /\
    errors res' = errors res ++ E /\ map fst E ⊆+ drop (Z.to_nat i) ids /\
    Z.of_nat (length E) = failed res' - failed res.
Proof.
  intros fuel. induction fuel as [|f IH]; intros i res w Hi Hfuel; [lia|].
  simpl. destruct (decide (i < Z.of_nat (length ids))) as [Hlt|Hge].
  - unfold bind at 1, log, log_msg, modify. unfold bind at 1.
    match goal with
    | |- context [run_batch ?r ?b ?w1] =>
        destruct (run_batch_counts b r w1) as (r1 & w2 & E1 & H1 & Ht1 & Hc1 & He1 & Hs1 & Hl1)
    end.
    rewrite H1.
    destruct (IH (i + bs) r1 w2 ltac:(lia) ltac:(lia))
      as (r2 & w3 & E2 & H2 & Ht2 & Hc2 & He2 & Hs2 & Hl2).
    exists r2, w3, (E1 ++ E2). rewrite H2.
    pose proof (js_slice_step ids i bs Hi Hbs Hlt) as Hstep.
    pose proof (Hsettle (js_slice ids i (i + bs))) as Hperm.
    pose proof (f_equal length Hstep) as Hlen. rewrite length_app in Hlen.
    rewrite (Permutation_length Hperm) in Hc1.
    repeat split; try lia.
    + rewrite He2, He1, app_assoc. reflexivity.
    + rewrite map_app, <- Hstep. apply submseteq_app; [|exact Hs2].
      transitivity (settle (js_slice ids i (i + bs))); [exact Hs1|].
      apply Permutation_submseteq. exact Hperm.
    + rewrite length_app. lia.
  - exists res, w, []. unfold ret.
    rewrite (drop_ge ids (Z.to_nat i)) by lia. simpl.
    repeat split; try lia.
    + rewrite app_nil_r. reflexivity.
    + apply submseteq_nil_l.
Qed.

End Batch.

End BatchFacts.

(** * Further properties of the task service *)

Module TasksServiceMoreFacts.
Import TasksService.

Lemma filter_not_in_delete (db : gmap string Task) (i : string) :
  filter (fun kv : string * Task => kv.1 ∉ [i]) db = delete i db.
Proof.
  apply map_eq. intros k. destruct (decide (k = i)) as [->|Hk].
  - rewrite lookup_delete_eq. apply map_lookup_filter_None. right.
    intros x _. simpl. rewrite list_elem_of_singleton. auto.
  - rewrite lookup_delete_ne by congruence.
    destruct (db !! k) as [t|] eqn:E.
    + apply map_lookup_filter_Some. split; [exact E|]. simpl.
      rewrite list_elem_of_singleton. exact Hk.
    + apply map_lookup_filter_None. left. exact E.
Qed.

Lemma filter_in_single (db : gmap string Task) (i : string) :
  size (filter (fun kv : string * Task => kv.1 ∈ [i]) db) =
  match db !! i with Some _ => 1%nat | None => 0%nat end.
Proof.
  destruct (db !! i) as [t|] eqn:E.
  - assert (Hf : filter (fun kv : string * Task => kv.1 ∈ [i]) db = {[i := t]}).
    { apply map_eq. intros k. destruct (decide (k = i)) as [->|Hk].
      - rewrite lookup_singleton_eq. apply map_lookup_filter_Some. split; [exact E|].
        simpl. apply list_elem_of_singleton. reflexivity.
      - rewrite lookup_singleton_ne by congruence. apply map_lookup_filter_None. right.
        intros x _. simpl. rewrite list_elem_of_singleton. exact Hk. }
    rewrite Hf. apply map_size_singleton.
  - assert (Hf : filter (fun kv : string * Task => kv.1 ∈ [i]) db = ∅).
    { apply map_eq. intros k. rewrite lookup_empty. apply map_lookup_filter_None.
      destruct (decide (k = i)) as [->|Hk]; [left; exact E|].
      right. intros x _. simpl. rewrite list_elem_of_singleton. exact Hk. }
    rewrite Hf. apply map_size_empty.
Qed.

Lemma status_partition (l : list Task) :
  filter (fun t => status t = PENDING) l ++ filter (fun t => status t = IN_PROGRESS) l ++
  filter (fun t => status t = COMPLETED) l ≡ₚ l.
Proof.
  induction l as [|x l IH]; [reflexivity|].
  rewrite !filter_cons.
  destruct (status x) eqn:Ex;
    repeat (case_decide; [try congruence|]); repeat case_decide; try congruence; simpl.
  - apply perm_skip. exact IH.
  - rewrite <- Permutation_middle. apply perm_skip. exact IH.
  - rewrite app_assoc, <- Permutation_middle, <- app_assoc. apply perm_skip. exact IH.
Qed.

Lemma count_filter (p : Task -> bool) (x : Task) (l : list Task) :
  length (filter (fun t => p t = true) (x :: l)) =
  ((if p x then 1 else 0) + length (filter (fun t => p t = true) l))%nat.
Proof. rewrite filter_cons. destruct (p x); case_decide; simpl; congruence || reflexivity. Qed.

Lemma count_status (l : list Task) :
  let cnt (p : Task -> bool) := length (filter (fun t => p t = true) l) in
  (cnt (fun t => bool_decide (status t = COMPLETED)) +
   cnt (fun t => bool_decide (status t = IN_PROGRESS)) +
   cnt (fun t => bool_decide (status t = PENDING)) = length l)%nat.
Proof.
  cbv zeta. induction l as [|x l IH]; [reflexivity|].
  rewrite !count_filter. simpl length.
  destruct (status x); repeat (case_bool_decide; try congruence); simpl; lia.
Qed.

Lemma foldr_insert_lookup (f : Task -> Task) (m0 : gmap string Task)
    (l : list (string * Task)) (k : string) :
  (forall kv, kv ∈ l -> m0 !! kv.1 = Some kv.2) ->
  foldr (fun kv (m : gmap string Task) => <[kv.1 := f kv.2]> m) m0 l !! k =
  if decide (k ∈ l.*1) then f <$> m0 !! k else m0 !! k.
Proof.
  induction l as [|[k' v'] l IH]; intros Hl; cbn [foldr fst snd]; [reflexivity|].
  assert (Hk' : m0 !! k' = Some v') by (apply (Hl (k', v')); left).
  destruct (decide (k = k')) as [->|Hne].
  - rewrite lookup_insert_eq, Hk'. rewrite decide_True by (left). reflexivity.
  - rewrite lookup_insert_ne by congruence.
    rewrite IH by (intros kv Hkv; apply Hl; right; exact Hkv).
    destruct (decide (k ∈ l.*1)) as [Hin|Hin].
    + rewrite decide_True; [reflexivity|]. simpl. right. exact Hin.
    + rewrite decide_False; [reflexivity|]. simpl. rewrite elem_of_cons.
      intros [?|?]; contradiction.
Qed.

Lemma concat_pages {A} (l : list A) (n s k : nat) :
  concat (map (fun i => take n (drop (i * n) l)) (seq s k)) = take (k * n) (drop (s * n) l).
Proof.
  revert s. induction k as [|k IH]; intros s; simpl; [reflexivity|].
  rewrite IH, <- take_take_drop, drop_drop.
  replace (s * n + n)%nat with (S s * n)%nat by lia. reflexivity.
Qed.

Lemma ceil_div_bounds (t l : Z) :
  0 < l -> (- ((- t) / l) - 1) * l < t <= - ((- t) / l) * l.
Proof.
  intros Hl. pose proof (Z.div_mod (- t) l ltac:(lia)) as Hd.
  pose proof (Z.mod_pos_bound (- t) l Hl) as Hb. nia.
Qed.

Lemma updateStatus_missing (i : string) (s : TaskStatus) (w : World) :
  w_db w !! i = None ->
  updateStatus i s w = (Throw (NotFoundException ("Task with ID " ++ i ++ " not found")), w).
Proof.
  intros Hn. unfold updateStatus, findOne. run_monad. rewrite Hn. reflexivity.
Qed.

Lemma updateStatus_found (i : string) (s : TaskStatus) (w : World) (t : Task) :
  w_db w !! i = Some t -> id t = i -> f_save (w_faults w) = false ->
  updateStatus i s w =
    (Ok (mkTask (id t) (title t) (description t) s (priority t) (dueDate t) (userId t)),
     mkWorld (<[i := mkTask (id t) (title t) (description t) s (priority t) (dueDate t)
                            (userId t)]> (w_db w))
             (w_txn w) (w_queue w) (w_logs w) (w_faults w) (w_next_id w)).
Proof.
  intros Ht Hid Hsave. subst i.
  unfold updateStatus, findOne, repository_save.
  run_monad. rewrite Ht. simpl. rewrite Hsave. reflexivity.
Qed.

(** X1: [remove(id)] deletes the row stored under [id] and leaves the queue
    alone; when no row is stored under [id] it throws [NotFoundException]
    and changes nothing. *)
Lemma remove_deletes (i : string) (w : World) :
  match w_db w !! i with
  | Some _ => exists w', remove i w = (Ok tt, w') /\
                w_db w' = delete i (w_db w) /\ w_queue w' = w_queue w
  | None => remove i w = (Throw (NotFoundException ("Task with ID " ++ i ++ " not found")), w)
  end.
Proof.
  destruct w as [db txn q logs fl nid]; simpl.
  unfold remove, repository_delete. run_monad.
  rewrite TasksServiceFacts.hit_length, filter_in_single, filter_not_in_delete.
  destruct (db !! i) as [t|] eqn:E; simpl.
  - eexists. split; [reflexivity|]. split; reflexivity.
  - rewrite delete_id by exact E. reflexivity.
Qed.

(** X2: [findByStatus(s)] changes nothing and returns exactly the stored
    tasks whose status is [s]; the lists for PENDING, IN_PROGRESS and
    COMPLETED together are a rearrangement of all stored tasks. *)
Lemma findByStatus_lists (w : World) :
  (forall s, exists l, findByStatus s w = (Ok l, w) /\
     forall t, t ∈ l <-> (exists k, w_db w !! k = Some t) /\ status t = s) /\
  exists p ip c, findByStatus PENDING w = (Ok p, w) /\ findByStatus IN_PROGRESS w = (Ok ip, w) /\
    findByStatus COMPLETED w = (Ok c, w) /\ p ++ ip ++ c ≡ₚ map snd (map_to_list (w_db w)).
Proof.
  split.
  - intros s. eexists. split; [reflexivity|].
    intros t. rewrite list_elem_of_filter, list_elem_of_fmap. split.
    + intros [Hs [[k t'] [-> Hin]]]. split; [|exact Hs].
      exists k. apply elem_of_map_to_list. exact Hin.
    + intros [[k Hk] Hs]. split; [exact Hs|]. exists (k, t). split; [reflexivity|].
      apply elem_of_map_to_list. exact Hk.
  - do 3 eexists. split; [reflexivity|]. split; [reflexivity|]. split; [reflexivity|].
    apply status_partition.
Qed.

(** X3: [getStats()] changes nothing; its [total] is the number of stored
    tasks, [completed + inProgress + pending] equals [total], and
    [highPriority] lies between 0 and [total] (also on an empty store,
    where the SQL sums are NULL and [|| 0] turns them into 0). *)
Lemma getStats_consistent (w : World) :
  exists st, getStats w = (Ok st, w) /\ st_total st = Z.of_nat (size (w_db w)) /\
    st_completed st + st_inProgress st + st_pending st = st_total st /\
    0 <= st_highPriority st <= st_total st.
Proof.
  eexists. split; [reflexivity|]. simpl.
  rewrite <- length_map_to_list, <- (length_map snd).
  unfold sql_sum_case.
  destruct (map snd (map_to_list (w_db w))) as [|x l]; simpl.
  - repeat split; lia.
  - pose proof (count_status (x :: l)) as Hc. simpl in Hc.
    pose proof (length_filter (fun t => is_high t = true) (x :: l)) as Hh.
    simpl in Hh. repeat split; simpl; lia.
Qed.

(** X4: the batch endpoint with action "delete" ([batchDelete]) removes
    exactly the stored rows whose id is listed, keeps every other row,
    leaves the queue alone, and reports as [success] the number of rows
    removed and as [failed] the number of ids minus that number. *)
Lemma batch_delete_action (ids : list string) (w : World) :
  exists w',
    TasksController.batchProcess ids "delete" w =
      (Ok (mkBatchResult (Z.of_nat (size (filter (fun kv : string * Task => kv.1 ∈ ids) (w_db w))))
                         (Z.of_nat (length ids) -
                          Z.of_nat (size (filter (fun kv : string * Task => kv.1 ∈ ids) (w_db w))))),
       w') /\
    (forall k, w_db w' !! k = if decide (k ∈ ids) then None else w_db w !! k) /\
    w_queue w' = w_queue w.
Proof.
  unfold TasksController.batchProcess. simpl.
  unfold batchDelete, repository_delete. run_monad.
  rewrite TasksServiceFacts.hit_length.
  eexists. split; [reflexivity|]. split; [|reflexivity].
  intros k. simpl. destruct (decide (k ∈ ids)) as [Hk|Hk].
  - apply map_lookup_filter_None. right. intros x _. simpl. auto.
  - destruct (w_db w !! k) as [t|] eqn:E.
    + apply map_lookup_filter_Some. split; [exact E|exact Hk].
    + apply map_lookup_filter_None. left. exact E.
Qed.

(** X5: [updateStatus(id, s)] throws [NotFoundException] with the message
    "Task with ID <id> not found" and changes nothing when no row is stored
    under [id]; for a stored row whose id is [id] and a
    working store, it saves and returns the row with status [s] and every
    other field kept, and queues nothing. *)
Lemma updateStatus_effect (i : string) (s : TaskStatus) (w : World) :
  (w_db w !! i = None ->
     updateStatus i s w = (Throw (NotFoundException ("Task with ID " ++ i ++ " not found")), w)) /\
  (forall t, w_db w !! i = Some t -> id t = i -> f_save (w_faults w) = false ->
     let t' := mkTask (id t) (title t) (description t) s (priority t) (dueDate t) (userId t) in
     exists w', updateStatus i s w = (Ok t', w') /\
       w_db w' = <[i := t']> (w_db w) /\ w_queue w' = w_queue w).
Proof.
  split.
  - apply updateStatus_missing.
  - intros t Ht Hid Hsave t'. rewrite (updateStatus_found i s w t Ht Hid Hsave).
    eexists. split; [reflexivity|]. split; reflexivity.
Qed.

(** X6: when [create] throws, the committed rows and the queue are as
    before and no transaction is left open. *)
Lemma create_rolls_back (dto : CreateTaskDto) (w w' : World) (e : Exn) :
  create dto w = (Throw e, w') ->
  w_db w' = w_db w /\ w_queue w' = w_queue w /\ w_txn w' = None.
Proof.
  destruct w as [db txn q logs [fs fc fu fa fb fq] nid].
  unfold create. run_monad.
  destruct fs; simpl.
  - intros H. injection H as <- <-. simpl. auto.
  - destruct fc; simpl.
    + intros H. injection H as <- <-. simpl. auto.
    + destruct fa; simpl; intros H; discriminate H.
Qed.

Lemma create_rolls_back_witness :
  create Samples.new_task_dto Samples.world_ab_commit_down =
    (Throw (StoreError "commit failed"),
     snd (create Samples.new_task_dto Samples.world_ab_commit_down)) /\
  (w_db (snd (create Samples.new_task_dto Samples.world_ab_commit_down))
     = w_db Samples.world_ab_commit_down /\
   w_queue (snd (create Samples.new_task_dto Samples.world_ab_commit_down))
     = w_queue Samples.world_ab_commit_down /\
   w_txn (snd (create Samples.new_task_dto Samples.world_ab_commit_down)) = None).
Proof.
  assert (H : create Samples.new_task_dto Samples.world_ab_commit_down =
    (Throw (StoreError "commit failed"),
     snd (create Samples.new_task_dto Samples.world_ab_commit_down))) by reflexivity.
  split; [exact H|]. exact (create_rolls_back _ _ _ _ H).
Defined.

(** X8: when [batchComplete] throws (a failed update or commit), the
    committed rows and the queue are as before and no transaction is left
    open; when the update and the commit succeed it returns a result,
    whether or not the [addBulk] after the commit fails. *)
Lemma batchComplete_rolls_back (ids : list string) (w : World) :
  (forall w' e, batchComplete ids w = (Throw e, w') ->
     w_db w' = w_db w /\ w_queue w' = w_queue w /\ w_txn w' = None) /\
  (f_update (w_faults w) = false -> f_commit (w_faults w) = false ->
     exists r w', batchComplete ids w = (Ok r, w')).
Proof.
  destruct w as [db txn q logs [fs fc fu fa fb fq] nid]. unfold batchComplete. run_monad.
  split.
  - intros w' e. destruct fu; simpl.
    + intros H. injection H as <- <-. simpl. auto.
    + destruct fc; simpl.
      * intros H. injection H as <- <-. simpl. auto.
      * destruct (decide (0 < length ids)%nat); simpl; [destruct fb; simpl|];
          intros H; discriminate H.
  - intros -> ->. simpl.
    destruct (decide (0 < length ids)%nat); simpl; [destruct fb; simpl|]; eauto.
Qed.

(** X9: when the update and the commit succeed, [batchComplete] returns a
    result and afterwards every stored row whose key is listed has status
    COMPLETED with its other fields kept, while every other row is
    unchanged; listed ids with no row add nothing. *)
Lemma batchComplete_marks_completed (ids : list string) (w : World)
    (Hupd : f_update (w_faults w) = false)
    (Hcommit : f_commit (w_faults w) = false) :
  exists r w', batchComplete ids w = (Ok r, w') /\
    forall k, w_db w' !! k =
      if decide (k ∈ ids)
      then (fun t => mkTask (id t) (title t) (description t) COMPLETED
                            (priority t) (dueDate t) (userId t)) <$> w_db w !! k
      else w_db w !! k.
Proof.
  destruct w as [db txn q logs [fs fc fu fa fb fq] nid]; simpl in *; subst.
  unfold batchComplete; run_monad.
  set (f := fun t => mkTask (id t) (title t) (description t) COMPLETED
                            (priority t) (dueDate t) (userId t)).
  assert (Hdb : forall k,
    foldr (fun kv (m : gmap string Task) => <[kv.1 := f kv.2]> m) db
          (filter (fun kv : string * Task => kv.1 ∈ ids) (map_to_list db)) !! k =
    if decide (k ∈ ids) then f <$> db !! k else db !! k).
  { intros k. rewrite (foldr_insert_lookup f).
    - destruct (decide (k ∈ ids)) as [Hi|Hi].
      + destruct (db !! k) as [t|] eqn:E.
        * rewrite decide_True; [reflexivity|].
          apply list_elem_of_fmap. exists (k, t). split; [reflexivity|].
          apply list_elem_of_filter. split; [exact Hi|]. apply elem_of_map_to_list. exact E.
        * destruct (decide _); reflexivity.
      + rewrite decide_False; [reflexivity|].
        intros Hk. apply list_elem_of_fmap in Hk as [[k' t] [-> Hin]].
        apply list_elem_of_filter in Hin as [Hin _]. exact (Hi Hin).
    - intros [k' t] Hin. apply list_elem_of_filter in Hin as [_ Hin].
      apply elem_of_map_to_list. exact Hin. }
  destruct (decide (0 < length ids)%nat); simpl; [destruct fb; simpl|];
    do 2 eexists; (split; [reflexivity|]); exact Hdb.
Qed.

Lemma batchComplete_marks_completed_witness :
  f_update (w_faults Samples.world_ab) = false /\ f_commit (w_faults Samples.world_ab) = false /\
  exists r w', batchComplete ["a"; "missing"] Samples.world_ab = (Ok r, w') /\
    forall k, w_db w' !! k =
      if decide (k ∈ ["a"; "missing"])
      then (fun t => mkTask (id t) (title t) (description t) COMPLETED
                            (priority t) (dueDate t) (userId t)) <$> w_db Samples.world_ab !! k
      else w_db Samples.world_ab !! k.
Proof.
  assert (H1 : f_update (w_faults Samples.world_ab) = false) by reflexivity.
  assert (H2 : f_commit (w_faults Samples.world_ab) = false) by reflexivity.
  split; [exact H1|]. split; [exact H2|].
  exact (batchComplete_marks_completed ["a"; "missing"] Samples.world_ab H1 H2).
Defined.

(** X10: each page query of [findAll] cuts its page from the matching rows
    in the order that query returns them; the sort column need not be
    unique, so two queries may order tied rows differently.  For a limit of
    at least 1 (as [TaskFilterDto] requires) and page queries that each
    return a reordering of the same matching rows: [total] and [totalPages]
    do not depend on the page, every page holds at most [limit] matching
    rows, the pages [1 .. totalPages] are non-empty and a page beyond
    [totalPages] is empty; when every query returns the rows in the same
    order, the pages [1 .. totalPages] put together give back every row in
    that order. *)
Lemma paginate_pages (rows : Z -> list Task) (limit : Z) (Hlimit : 1 <= limit)
    (Hperm : forall p, rows p ≡ₚ rows 1) :
  let totalPages := pm_totalPages (paginate (rows 1) 1 limit).2 in
  (forall page, 1 <= page ->
     pm_totalPages (paginate (rows page) page limit).2 = totalPages /\
     pm_total (paginate (rows page) page limit).2 = Z.of_nat (length (rows 1)) /\
     (length (paginate (rows page) page limit).1 <= Z.to_nat limit)%nat /\
     (forall t, t ∈ (paginate (rows page) page limit).1 -> t ∈ rows 1) /\
     (page <= totalPages -> (paginate (rows page) page limit).1 <> []) /\
     (totalPages < page -> (paginate (rows page) page limit).1 = [])) /\
  ((forall p, rows p = rows 1) ->
   concat (map (fun p => (paginate (rows (Z.of_nat p)) (Z.of_nat p) limit).1)
               (seq 1 (Z.to_nat totalPages))) = rows 1).
Proof.
  cbv zeta. split.
  - intros page Hp.
    pose proof (Permutation_length (Hperm page)) as Hlen.
    simpl. rewrite Hlen.
    set (t := Z.of_nat (length (rows 1))).
    pose proof (ceil_div_bounds t limit ltac:(lia)) as [Hlo Hhi].
    set (tp := - ((- t) / limit)) in *.
    split; [reflexivity|]. split; [reflexivity|]. split; [|split; [|split]].
    + rewrite length_take. lia.
    + intros x Hx. apply elem_of_take in Hx as [i [Hi _]].
      apply list_elem_of_lookup_2 in Hi.
      rewrite <- (Hperm page), <- (take_drop (Z.to_nat ((page - 1) * limit)) (rows page)).
      apply elem_of_app. right. exact Hi.
    + intros Hle Hnil. apply (f_equal length) in Hnil.
      rewrite length_take, length_drop, Hlen in Hnil. simpl in Hnil.
      assert ((page - 1) * limit <= (tp - 1) * limit)
        by (apply Z.mul_le_mono_nonneg_r; lia).
      assert ((page - 1) * limit < t) by lia.
      assert (0 <= (page - 1) * limit) by (apply Z.mul_nonneg_nonneg; lia).
      unfold t in H0. lia.
    + intros Hgt. rewrite drop_ge; [apply take_nil|].
      assert (tp * limit <= (page - 1) * limit)
        by (apply Z.mul_le_mono_nonneg_r; lia).
      rewrite Hlen. apply Nat2Z.inj_le. rewrite Z2Nat.id by nia. fold t. lia.
  - intros Hsame.
    rewrite (map_ext_in _ (fun p => (paginate (rows 1) (Z.of_nat p) limit).1))
      by (intros p _; rewrite (Hsame (Z.of_nat p)); reflexivity).
    simpl. set (t := Z.of_nat (length (rows 1))).
    pose proof (ceil_div_bounds t limit ltac:(lia)) as [Hlo Hhi].
    set (tp := - ((- t) / limit)) in *.
    rewrite <- seq_shift, map_map.
    rewrite (map_ext_in _ (fun i => take (Z.to_nat limit) (drop (i * Z.to_nat limit) (rows 1)))).
    + rewrite concat_pages. simpl. apply take_ge.
      assert (0 <= tp) by nia.
      assert (Z.of_nat (length (rows 1)) <= Z.of_nat (Z.to_nat tp * Z.to_nat limit)); [|lia].
      rewrite Nat2Z.inj_mul, !Z2Nat.id by lia. fold t. lia.
    + intros i _. f_equal. f_equal. rewrite Z2Nat.inj_mul by lia. f_equal. lia.
Qed.

Lemma paginate_pages_witness :
  1 <= 1 /\ (forall p, Samples.page_rows p ≡ₚ Samples.page_rows 1) /\
  (forall page, 1 <= page ->
     pm_totalPages (paginate (Samples.page_rows page) page 1).2
       = pm_totalPages (paginate (Samples.page_rows 1) 1 1).2 /\
     pm_total (paginate (Samples.page_rows page) page 1).2
       = Z.of_nat (length (Samples.page_rows 1)) /\
     (length (paginate (Samples.page_rows page) page 1).1 <= Z.to_nat 1)%nat /\
     (forall t, t ∈ (paginate (Samples.page_rows page) page 1).1 -> t ∈ Samples.page_rows 1) /\
     (page <= pm_totalPages (paginate (Samples.page_rows 1) 1 1).2 ->
      (paginate (Samples.page_rows page) page 1).1 <> []) /\
     (pm_totalPages (paginate (Samples.page_rows 1) 1 1).2 < page ->
      (paginate (Samples.page_rows page) page 1).1 = [])) /\
  ((forall p, Samples.page_rows p = Samples.page_rows 1) ->
   concat (map (fun p => (paginate (Samples.page_rows (Z.of_nat p)) (Z.of_nat p) 1).1)
               (seq 1 (Z.to_nat (pm_totalPages (paginate (Samples.page_rows 1) 1 1).2))))
     = Samples.page_rows 1).
Proof.
  assert (H1 : 1 <= 1) by lia.
  assert (H2 : forall p, Samples.page_rows p ≡ₚ Samples.page_rows 1).
  { intros p. unfold Samples.page_rows. simpl.
    destruct (Z.eqb p 1); [reflexivity|apply perm_swap]. }
  split; [exact H1|]. split; [exact H2|].
  exact (paginate_pages Samples.page_rows 1 H1 H2).
Defined.

End TasksServiceMoreFacts.

(** * Further properties of the cache service *)

Module CacheValuesFacts.
Import Cache CacheFacts Stdlib.Strings.Ascii.

Ltac run_values :=
  repeat (unfold bind, ret, throw, try_catch, gets, modify, CacheValues.set_data,
          CacheValues.redis_setex, CacheValues.redis_get, CacheValues.redis_del,
          CacheValues.redis_exists, CacheValues.connected, CacheValues.set,
          CacheValues.get, CacheValues.delete, CacheValues.has in *);
  simpl in *.

(** X11: [set] never throws: it writes the serialized value under
    [namespace:key] with the ttl (300 seconds when none is given) only when
    the client is ready, [SETEX] succeeds and the ttl is positive; in every
    other case (not connected, a failing [SETEX], or a ttl of 0 or less that
    Redis refuses) it swallows the error and leaves the store as it was. *)
Lemma cache_set_outcome {V} (stringify : V -> string) (key ns : string) (value : V)
    (ttlSeconds : option Z) (st : CacheValues.Store) :
  CacheValues.set stringify key value ns ttlSeconds st =
    (Ok tt,
     if CacheValues.s_ready st && negb (CacheValues.vf_setex (CacheValues.s_faults st))
        && bool_decide (0 < default 300 ttlSeconds)
     then CacheValues.mkStore (CacheValues.s_ready st)
            (<[buildKey ns key := (stringify value, default 300 ttlSeconds)]>
               (CacheValues.s_data st))
            (CacheValues.s_faults st)
     else st).
Proof.
  destruct st as [rd d [fs fg fd fe]]. run_values.
  destruct rd; simpl; [|reflexivity].
  destruct fs; simpl; [reflexivity|].
  destruct (decide (default 300 ttlSeconds <= 0)); case_bool_decide; simpl;
    try reflexivity; lia.
Qed.

(** X12: on a ready store whose [SETEX] and [GET] work, with a positive ttl
    and a value whose serialization is non-empty and parses back to it,
    [get] right after [set] returns the value, and [set] changes no other
    key. *)
Lemma cache_set_get {V} (stringify : V -> string) (parse : string -> option V)
    (key ns : string) (value : V) (ttlSeconds : option Z) (st : CacheValues.Store)
    (Hready : CacheValues.s_ready st = true)
    (Hset : CacheValues.vf_setex (CacheValues.s_faults st) = false)
    (Hget : CacheValues.vf_get (CacheValues.s_faults st) = false)
    (Httl : 0 < default 300 ttlSeconds)
    (Hjson : parse (stringify value) = Some value)
    (Hne : stringify value <> "") :
  exists st', CacheValues.set stringify key value ns ttlSeconds st = (Ok tt, st') /\
    CacheValues.get parse key ns st' = (Ok (Some value), st') /\
    (forall k, k <> buildKey ns key ->
       CacheValues.s_data st' !! k = CacheValues.s_data st !! k).
Proof.
  destruct st as [rd d [fs fg fd fe]]; simpl in *; subst.
  unfold CacheValues.set, CacheValues.connected, CacheValues.redis_setex,
    CacheValues.set_data, try_catch, bind, gets, modify, ret, throw; simpl.
  destruct (decide (default 300 ttlSeconds <= 0)); [lia|]. simpl.
  eexists. split; [reflexivity|]. split.
  - run_values. rewrite lookup_insert_eq. simpl.
    destruct (String.eqb_spec (stringify value) ""); [contradiction|].
    rewrite Hjson. reflexivity.
  - intros k Hk. simpl. apply lookup_insert_ne. congruence.
Qed.

Lemma cache_set_get_witness :
  CacheValues.s_ready Samples.store_empty = true /\
  CacheValues.vf_setex (CacheValues.s_faults Samples.store_empty) = false /\
  CacheValues.vf_get (CacheValues.s_faults Samples.store_empty) = false /\
  0 < default 300 None /\
  (fun s => match s with String _ r => Some r | EmptyString => None end)
    ((fun s => append "q" s) "v") = Some "v"%string /\
  (fun s => append "q" s) "v" <> ""%string /\
  exists st', CacheValues.set (fun s => append "q" s) "1" "v" "tasks" None Samples.store_empty
                = (Ok tt, st') /\
    CacheValues.get (fun s => match s with String _ r => Some r | EmptyString => None end)
      "1" "tasks" st' = (Ok (Some "v"%string), st') /\
    (forall k, k <> buildKey "tasks" "1" ->
       CacheValues.s_data st' !! k = CacheValues.s_data Samples.store_empty !! k).
Proof.
  assert (H1 : CacheValues.s_ready Samples.store_empty = true) by reflexivity.
  assert (H2 : CacheValues.vf_setex (CacheValues.s_faults Samples.store_empty) = false)
    by reflexivity.
  assert (H3 : CacheValues.vf_get (CacheValues.s_faults Samples.store_empty) = false)
    by reflexivity.
  assert (H4 : 0 < default 300 None) by (simpl; lia).
  assert (H5 : (fun s => match s with String _ r => Some r | EmptyString => None end)
                 ((fun s => append "q" s) "v") = Some "v"%string) by reflexivity.
  assert (H6 : (fun s => append "q" s) "v" <> ""%string) by discriminate.
  do 6 (split; [assumption|]).
  exact (cache_set_get (fun s => append "q" s)
           (fun s => match s with String _ r => Some r | EmptyString => None end)
           "1" "tasks" "v" None Samples.store_empty H1 H2 H3 H4 H5 H6).
Defined.

(** X13: on a ready store whose [DEL] and [EXISTS] work, [delete] returns
    whether the key was there, removes it and nothing else, and a following
    [has] answers false. *)
Lemma cache_delete_then_has (key ns : string) (st : CacheValues.Store)
    (Hready : CacheValues.s_ready st = true)
    (Hdel : CacheValues.vf_del (CacheValues.s_faults st) = false)
    (Hex : CacheValues.vf_exists (CacheValues.s_faults st) = false) :
  exists st',
    CacheValues.delete key ns st =
      (Ok (bool_decide (is_Some (CacheValues.s_data st !! buildKey ns key))), st') /\
    CacheValues.s_data st' = delete (buildKey ns key) (CacheValues.s_data st) /\
    CacheValues.has key ns st' = (Ok false, st').
Proof.
  destruct st as [rd d [fs fg fd fe]]; simpl in *; subst. run_values.
  destruct (d !! buildKey ns key) as [x|] eqn:E; simpl.
  - eexists. split; [reflexivity|]. split; [reflexivity|].
    run_values. rewrite lookup_delete_eq. simpl. reflexivity.
  - eexists. split; [reflexivity|]. split; [symmetry; apply delete_id; exact E|].
    run_values. rewrite E. simpl. reflexivity.
Qed.

Lemma cache_delete_then_has_witness :
  CacheValues.s_ready Samples.store_empty = true /\
  CacheValues.vf_del (CacheValues.s_faults Samples.store_empty) = false /\
  CacheValues.vf_exists (CacheValues.s_faults Samples.store_empty) = false /\
  exists st',
    CacheValues.delete "1" "tasks" Samples.store_empty =
      (Ok (bool_decide (is_Some (CacheValues.s_data Samples.store_empty
                                   !! buildKey "tasks" "1"))), st') /\
    CacheValues.s_data st' = delete (buildKey "tasks" "1") (CacheValues.s_data Samples.store_empty) /\
    CacheValues.has "1" "tasks" st' = (Ok false, st').
Proof.
  assert (H1 : CacheValues.s_ready Samples.store_empty = true) by reflexivity.
  assert (H2 : CacheValues.vf_del (CacheValues.s_faults Samples.store_empty) = false)
    by reflexivity.
  assert (H3 : CacheValues.vf_exists (CacheValues.s_faults Samples.store_empty) = false)
    by reflexivity.
  do 3 (split; [assumption|]).
  exact (cache_delete_then_has "1" "tasks" Samples.store_empty H1 H2 H3).
Defined.

(** X14: [buildKey] keeps namespaces apart: for namespaces without a colon,
    two equal keys [namespace:key] come from the same namespace and the
    same key. *)
Lemma buildKey_injective (ns ns' key key' : string)
    (Hns : (":"%char) ∉ list_ascii_of_string ns)
    (Hns' : (":"%char) ∉ list_ascii_of_string ns') :
  buildKey ns key = buildKey ns' key' -> ns = ns' /\ key = key'.
Proof.
  unfold buildKey. revert ns' Hns Hns'.
  induction ns as [|c ns IH]; intros [|c' ns'] Hns Hns' H; simpl in *.
  - injection H as H. auto.
  - injection H as <- _. exfalso. apply Hns'. left.
  - injection H as -> _. exfalso. apply Hns. left.
  - injection H as <- H.
    destruct (IH ns') as [-> ->]; auto.
    + intros Hin. apply Hns. right. exact Hin.
    + intros Hin. apply Hns'. right. exact Hin.
Qed.

Lemma buildKey_injective_witness :
  ((":"%char) ∉ list_ascii_of_string "tasks") /\ ((":"%char) ∉ list_ascii_of_string "users") /\
  buildKey "tasks" "1" <> buildKey "users" "1".
Proof.
  assert (H1 : (":"%char) ∉ list_ascii_of_string "tasks") by (intros Hin; cbn in Hin; repeat (apply elem_of_cons in Hin as [Hin|Hin]; [discriminate Hin|]); exact (not_elem_of_nil _ Hin)).
  assert (H2 : (":"%char) ∉ list_ascii_of_string "users") by (intros Hin; cbn in Hin; repeat (apply elem_of_cons in Hin as [Hin|Hin]; [discriminate Hin|]); exact (not_elem_of_nil _ Hin)).
  split; [exact H1|]. split; [exact H2|].
  intros H. destruct (buildKey_injective "tasks" "users" "1" "1" H1 H2 H) as [E _].
  discriminate E.
Defined.

(** X15: with a negative ttl, Redis drops the key at once on the [EXPIRE]
    that follows the first [INCR] ([ttlSeconds] is truthy, so [increment]
    sends it); so every call of [increment] on a fresh key returns 1 and the
    key never stays in the store. *)
Lemma increment_negative_ttl (key ns : string) (t : Z) (r : Redis) (n : nat)
    (Hready : r_ready r = true) (Hincr : rf_incr (r_faults r) = false)
    (Hexp : rf_expire (r_faults r) = false)
    (Hfresh : r_kv r !! buildKey ns key = None) (Ht : t < 0) :
  exists r', increment_n n key ns (Some t) r = (Ok (repeat 1 n), r') /\
    r_kv r' = r_kv r.
Proof.
  destruct r as [rd kv [fi fe ft] cmds]; simpl in *; subst.
  revert cmds. induction n as [|n IH]; intros cmds; [eexists; split; reflexivity|].
  unfold increment_n; fold increment_n.
  assert (Hstep : increment key ns (Some t) (mkRedis true kv (mkRedisFaults false false ft) cmds) =
    (Ok 1, mkRedis true kv (mkRedisFaults false false ft)
             (cmds ++ [INCR (buildKey ns key)] ++ [EXPIRE (buildKey ns key) t]))).
  { run_redis. rewrite Hfresh. simpl.
    destruct (decide (t = 0)); [lia|]. simpl.
    rewrite lookup_insert_eq. simpl.
    destruct (decide (t <= 0)); [|lia]. simpl.
    rewrite delete_insert_eq, delete_id by exact Hfresh.
    rewrite <- app_assoc. reflexivity. }
  unfold bind at 1. rewrite Hstep.
  destruct (IH (cmds ++ [INCR (buildKey ns key)] ++ [EXPIRE (buildKey ns key) t]))
    as [r' [Hr' Hkv]].
  unfold bind. rewrite Hr'. simpl. eexists. split; [reflexivity|exact Hkv].
Qed.

Lemma increment_negative_ttl_witness :
  r_ready Samples.redis_empty = true /\ rf_incr (r_faults Samples.redis_empty) = false /\
  rf_expire (r_faults Samples.redis_empty) = false /\
  r_kv Samples.redis_empty !! buildKey "rate_limit" "h" = None /\ -5 < 0 /\
  exists r', increment_n 3 "h" "rate_limit" (Some (-5)) Samples.redis_empty
               = (Ok (repeat 1 3), r') /\ r_kv r' = r_kv Samples.redis_empty.
Proof.
  assert (H1 : r_ready Samples.redis_empty = true) by reflexivity.
  assert (H2 : rf_incr (r_faults Samples.redis_empty) = false) by reflexivity.
  assert (H3 : rf_expire (r_faults Samples.redis_empty) = false) by reflexivity.
  assert (H4 : r_kv Samples.redis_empty !! buildKey "rate_limit" "h" = None) by reflexivity.
  assert (H5 : -5 < 0) by lia.
  do 5 (split; [assumption|]).
  exact (increment_negative_ttl "h" "rate_limit" (-5) Samples.redis_empty 3 H1 H2 H3 H4 H5).
Defined.

End CacheValuesFacts.

(** * Further properties of the rate limit guard *)

Module RateLimitMoreFacts.
Import Cache RateLimitGuard CacheFacts RateLimitFacts.

Lemma ceil_div_pos (w : Z) : 1 <= w -> 1 <= ceil_div w 1000.
Proof.
  intros Hw. unfold ceil_div.
  pose proof (Z.div_mod (- w) 1000 ltac:(lia)).
  pose proof (Z.mod_pos_bound (- w) 1000 ltac:(lia)). lia.
Qed.

(** X16: for any limit of at least 1 and window of at least 1 ms, on a
    healthy store with no counter for the client, [handleRateLimit] admits
    the first [limit] requests, leaving the counter at [limit] with an
    expiry of [ceil(windowMs / 1000)] seconds; the next request is rejected
    with [limit], [remaining = 0] and a [resetAt] that is [now] plus the
    remaining ttl in milliseconds. *)
Lemma limit_admitted_then_rejected (identifier : string) (limit windowMs now0 now : Z)
    (r : Redis)
    (Hready : r_ready r = true) (Hhealthy : r_faults r = redis_healthy)
    (Hfresh : r_kv r !! buildKey "rate_limit" identifier = None)
    (Hlimit : 1 <= limit) (Hwindow : 1 <= windowMs) :
  exists rl r' p,
    handle_n (Z.to_nat limit) identifier limit windowMs now0 r =
      (Ok (replicate (Z.to_nat limit) true), rl) /\
    r_kv rl !! buildKey "rate_limit" identifier = Some (limit, Some (ceil_div windowMs 1000)) /\
    handleRateLimit identifier limit windowMs now rl = (Throw (HttpException p), r') /\
    rl_limit p = limit /\ rl_remaining p = 0 /\
    rl_resetAt p = now + ceil_div windowMs 1000 * 1000.
Proof.
  destruct r as [rd kv fl cmds]; simpl in Hready, Hhealthy, Hfresh; subst.
  set (k := buildKey "rate_limit" identifier).
  set (ttl := ceil_div windowMs 1000).
  assert (Httl : 1 <= ttl) by (apply ceil_div_pos; exact Hwindow).
  assert (H1 := increment_first identifier "rate_limit" (Some ttl) kv cmds Hfresh).
  specialize (H1 ltac:(intros t Ht; injection Ht; lia)).
  simpl truthy in H1. destruct (decide (ttl = 0)); [lia|].
  destruct (Z.to_nat limit) as [|m] eqn:Em; [lia|].
  rewrite handle_n_S, (handle_admit identifier limit windowMs now0 _ _ _ H1 ltac:(lia)).
  destruct (handle_n_under_limit identifier limit windowMs now0 m
              (<[k := (1, Some ttl)]> kv) (cmds ++ [INCR k; EXPIRE k ttl]) 1 (Some ttl)
              (lookup_insert_eq _ _ _))
    as [cmdsm Hm]; [lia | lia |].
  change (buildKey "rate_limit" identifier) with k.
  rewrite Hm, insert_insert_eq.
  replace (1 + Z.of_nat m) with limit by lia.
  assert (H6 := increment_later identifier "rate_limit" (Some ttl)
                  (<[k := (limit, Some ttl)]> kv) cmdsm limit (Some ttl) (lookup_insert_eq _ _ _)).
  specialize (H6 ltac:(lia)).
  assert (Ht : getTTL identifier "rate_limit"
                 (mkRedis true (<[k := (limit + 1, Some ttl)]> (<[k := (limit, Some ttl)]> kv))
                          redis_healthy (cmdsm ++ [INCR k])) =
               (Ok ttl, mkRedis true (<[k := (limit + 1, Some ttl)]> (<[k := (limit, Some ttl)]> kv))
                          redis_healthy (cmdsm ++ [INCR k] ++ [TTL k]))).
  { run_redis. rewrite lookup_insert_eq. rewrite <- app_assoc. reflexivity. }
  eexists _, _, _. split; [reflexivity|]. split; [apply lookup_insert_eq|].
  rewrite (handle_reject identifier limit windowMs now _ _ _ _ ttl H6 ltac:(lia) Ht).
  split; [reflexivity|]. simpl.
  destruct (decide (ttl > 0)); [|lia].
  split; [reflexivity|]. split; reflexivity.
Qed.

Lemma limit_admitted_then_rejected_witness :
  r_ready Samples.redis_empty = true /\ r_faults Samples.redis_empty = redis_healthy /\
  r_kv Samples.redis_empty !! buildKey "rate_limit" "h" = None /\ 1 <= 3 /\ 1 <= 1500 /\
  exists rl r' p,
    handle_n (Z.to_nat 3) "h" 3 1500 0 Samples.redis_empty =
      (Ok (replicate (Z.to_nat 3) true), rl) /\
    r_kv rl !! buildKey "rate_limit" "h" = Some (3, Some (ceil_div 1500 1000)) /\
    handleRateLimit "h" 3 1500 10 rl = (Throw (HttpException p), r') /\
    rl_limit p = 3 /\ rl_remaining p = 0 /\ rl_resetAt p = 10 + ceil_div 1500 1000 * 1000.
Proof.
  assert (H1 : r_ready Samples.redis_empty = true) by reflexivity.
  assert (H2 : r_faults Samples.redis_empty = redis_healthy) by reflexivity.
  assert (H3 : r_kv Samples.redis_empty !! buildKey "rate_limit" "h" = None) by reflexivity.
  assert (H4 : 1 <= 3) by lia.
  assert (H5 : 1 <= 1500) by lia.
  do 5 (split; [assumption|]).
  exact (limit_admitted_then_rejected "h" 3 1500 0 10 Samples.redis_empty H1 H2 H3 H4 H5).
Defined.

End RateLimitMoreFacts.

(** * Further properties of the task processor *)

Module ProcessorMoreFacts.
Import TaskProcessor.

Lemma world_ab_keys_match : keys_match (w_db Samples.world_ab).
Proof.
  intros k t Hk. simpl in Hk.
  apply lookup_insert_Some in Hk as [[<- <-]|[_ Hk]]; [reflexivity|].
  apply lookup_singleton_Some in Hk as [<- <-]. reflexivity.
Qed.

Section Effect.
Variable settle : list string -> list string.
Hypothesis Hsettle : forall l, settle l ≡ₚ l.

Lemma process_one_effect (res : OverdueResults) (t : string) (w : World)
    (Hwf : keys_match (w_db w)) (Hsave : f_save (w_faults w) = false) :
  exists res' w', process_one res t w = (Ok res', w') /\
    w_faults w' = w_faults w /\
    (forall k, w_db w' !! k =
       if decide (k = t)
       then (fun x => mkTask (id x) (title x) (description x) PENDING (priority x)
                             (dueDate x) (userId x)) <$> w_db w !! k
       else w_db w !! k) /\
    (map fst (errors res') = map fst (errors res) ++
       match w_db w !! t with Some _ => [] | None => [t] end).
Proof.
  unfold process_one, try_catch, bind, ret, log, log_msg, modify.
  destruct (w_db w !! t) as [x|] eqn:E.
  - rewrite (TasksServiceMoreFacts.updateStatus_found t PENDING w x E (Hwf t x E) Hsave).
    do 2 eexists. split; [reflexivity|]. split; [reflexivity|]. split.
    + intros k. simpl. destruct (decide (k = t)) as [->|Hk].
      * rewrite lookup_insert_eq, E. reflexivity.
      * apply lookup_insert_ne. congruence.
    + simpl. rewrite app_nil_r. reflexivity.
  - rewrite (TasksServiceMoreFacts.updateStatus_missing t PENDING w E).
    do 2 eexists. split; [reflexivity|]. split; [reflexivity|]. split.
    + intros k. simpl. destruct (decide (k = t)) as [->|Hk]; [rewrite E|]; reflexivity.
    + simpl. rewrite map_app. reflexivity.
Qed.

Lemma run_batch_effect (batch : list string) :
  forall res w, keys_match (w_db w) -> f_save (w_faults w) = false ->
  exists res' w', run_batch res batch w = (Ok res', w') /\
    w_faults w' = w_faults w /\
    (forall k, w_db w' !! k =
       if decide (k ∈ batch)
       then (fun x => mkTask (id x) (title x) (description x) PENDING (priority x)
                             (dueDate x) (userId x)) <$> w_db w !! k
       else w_db w !! k) /\
    map fst (errors res') = map fst (errors res) ++ filter (fun t => w_db w !! t = None) batch.
Proof.
  induction batch as [|t rest IH]; intros res w Hwf Hsave; cbn [run_batch].
  - exists res, w. unfold ret. split; [reflexivity|]. split; [reflexivity|]. split.
    + intros k. rewrite decide_False by (apply not_elem_of_nil). reflexivity.
    + rewrite app_nil_r. reflexivity.
  - destruct (process_one_effect res t w Hwf Hsave) as (r1 & w1 & H1 & Hf1 & Hdb1 & He1).
    assert (Hwf1 : keys_match (w_db w1)).
    { intros k x Hk. rewrite Hdb1 in Hk. destruct (decide (k = t)).
      - destruct (w_db w !! k) as [y|] eqn:E; simpl in Hk; [|discriminate].
        injection Hk as <-. simpl. exact (Hwf k y E).
      - exact (Hwf k x Hk). }
    destruct (IH r1 w1 Hwf1 ltac:(congruence)) as (r2 & w2 & H2 & Hf2 & Hdb2 & He2).
    exists r2, w2. unfold bind at 1. rewrite H1, H2.
    split; [reflexivity|]. split; [congruence|]. split.
    + intros k. rewrite Hdb2, Hdb1.
      destruct (decide (k = t)) as [->|Hk].
      * rewrite (decide_True (P := t ∈ t :: rest)) by left.
        destruct (decide (t ∈ rest)); [|reflexivity].
        destruct (w_db w !! t); reflexivity.
      * destruct (decide (k ∈ rest)) as [Hin|Hin].
        -- rewrite decide_True by (right; exact Hin). reflexivity.
        -- rewrite decide_False; [reflexivity|].
           rewrite elem_of_cons. intros [?|?]; contradiction.
    + rewrite He2, He1, filter_cons, <- app_assoc. f_equal.
      assert (Hsame : filter (fun t0 => w_db w1 !! t0 = None) rest =
                      filter (fun t0 => w_db w !! t0 = None) rest).
      { apply list_filter_iff. intros x. rewrite Hdb1.
        destruct (decide (x = t)); [|reflexivity].
        destruct (w_db w !! x); simpl; split; congruence. }
      rewrite Hsame.
      destruct (w_db w !! t) eqn:E; case_decide; simpl; congruence || reflexivity.
Qed.

Lemma batch_loop_effect (ids : list string) (bs : Z) (Hbs : 0 < bs) :
  forall fuel i res w, 0 <= i -> (length ids - Z.to_nat i < fuel)%nat ->
  keys_match (w_db w) -> f_save (w_faults w) = false ->
  exists res' w',
    batch_loop settle fuel ids bs i res w = (Ok (Some res'), w') /\
    (forall k, w_db w' !! k =
       if decide (k ∈ drop (Z.to_nat i) ids)
       then (fun x => mkTask (id x) (title x) (description x) PENDING (priority x)
                             (dueDate x) (userId x)) <$> w_db w !! k
       else w_db w !! k) /\
    map fst (errors res') ≡ₚ
      map fst (errors res) ++ filter (fun t => w_db w !! t = None) (drop (Z.to_nat i) ids).
Proof.
  intros fuel. induction fuel as [|f IH]; intros i res w Hi Hfuel Hwf Hsave; [lia|].
  cbn [batch_loop]. destruct (decide (i < Z.of_nat (length ids))) as [Hlt|Hge].
  - unfold bind at 1, log, log_msg, modify. unfold bind at 1.
    set (wl := mkWorld (w_db w) (w_txn w) (w_queue w) (w_logs w ++ [(LDebug, "")])
                       (w_faults w) (w_next_id w)).
    set (batch := js_slice ids i (i + bs)).
    destruct (run_batch_effect (settle batch) res wl Hwf Hsave)
      as (r1 & w1 & H1 & Hf1 & Hdb1 & He1).
    rewrite H1.
    assert (Hwf1 : keys_match (w_db w1)).
    { intros k x Hk. rewrite Hdb1 in Hk. simpl in Hk. destruct (decide _).
      - destruct (w_db w !! k) as [y|] eqn:E; simpl in Hk; [|discriminate].
        injection Hk as <-. simpl. exact (Hwf k y E).
      - exact (Hwf k x Hk). }
    destruct (IH (i + bs) r1 w1 ltac:(lia) ltac:(lia) Hwf1 ltac:(simpl in *; congruence))
      as (r2 & w2 & H2 & Hdb2 & He2).
    exists r2, w2. rewrite H2. split; [reflexivity|].
    pose proof (BatchFacts.js_slice_step ids i bs Hi Hbs Hlt) as Hstep. fold batch in Hstep.
    assert (Hmem : forall k, k ∈ drop (Z.to_nat i) ids <->
                             k ∈ settle batch \/ k ∈ drop (Z.to_nat (i + bs)) ids).
    { intros k. rewrite <- Hstep, elem_of_app, (Hsettle batch). reflexivity. }
    split.
    + intros k. rewrite Hdb2, Hdb1. simpl.
      destruct (decide (k ∈ settle batch)) as [Hb|Hb];
        destruct (decide (k ∈ drop (Z.to_nat (i + bs)) ids)) as [Hd|Hd].
      * rewrite decide_True by (apply Hmem; auto). destruct (w_db w !! k); reflexivity.
      * rewrite decide_True by (apply Hmem; auto). reflexivity.
      * rewrite decide_True by (apply Hmem; auto). reflexivity.
      * rewrite decide_False; [reflexivity|]. rewrite Hmem. tauto.
    + rewrite He2, He1, <- app_assoc. apply Permutation_app_head.
      assert (Hsame : filter (fun t => w_db w1 !! t = None) (drop (Z.to_nat (i + bs)) ids) =
                      filter (fun t => w_db w !! t = None) (drop (Z.to_nat (i + bs)) ids)).
      { apply list_filter_iff. intros x. rewrite Hdb1. simpl.
        destruct (decide _); [|reflexivity].
        destruct (w_db w !! x); simpl; split; congruence. }
      simpl. rewrite Hsame, <- Hstep, filter_app, (Hsettle batch). reflexivity.
  - exists res, w. unfold ret. split; [reflexivity|].
    rewrite (drop_ge ids (Z.to_nat i)) by lia. split.
    + intros k. rewrite decide_False by (apply not_elem_of_nil). reflexivity.
    + simpl. rewrite app_nil_r. reflexivity.
Qed.

(** X17: for a positive batch size, on a store whose rows sit under their
    own ids and whose save works, [processOverdueTaskBatch] returns its
    aggregate; afterwards every listed id with a stored row has status
    PENDING (other fields kept), every other row is unchanged, and the ids
    in [errors] are exactly the listed ids with no row (one entry per
    occurrence, in the order the promises settle). *)
Lemma overdue_batch_marks_pending (ids : list string) (bs : Z) (w : World)
    (Hbs : 0 < bs) (Hwf : keys_match (w_db w)) (Hsave : f_save (w_faults w) = false) :
  exists res w',
    processOverdueTaskBatch settle ids bs w
      = (Ok (Some (OverdueAggregate (bool_decide (failed res = 0)) res)), w') /\
    (forall k, w_db w' !! k =
       if decide (k ∈ ids)
       then (fun x => mkTask (id x) (title x) (description x) PENDING (priority x)
                             (dueDate x) (userId x)) <$> w_db w !! k
       else w_db w !! k) /\
    map fst (errors res) ≡ₚ filter (fun t => w_db w !! t = None) ids.
Proof.
  unfold processOverdueTaskBatch, bind at 1.
  destruct (batch_loop_effect ids bs Hbs (S (length ids)) 0
              (mkOverdueResults (Z.of_nat (length ids)) 0 0 []) w ltac:(lia) ltac:(lia)
              Hwf Hsave)
    as (r & w1 & H & Hdb & He).
  rewrite H. change (Z.to_nat 0) with 0%nat in *. rewrite drop_0 in *.
  eexists r, _. split; [reflexivity|]. split.
  - intros k. rewrite Hdb. reflexivity.
  - rewrite He. reflexivity.
Qed.

End Effect.

Lemma overdue_batch_marks_pending_witness :
  (forall l : list string, (fun l => l) l ≡ₚ l) /\ 0 < 2 /\
  keys_match (w_db Samples.world_ab) /\ f_save (w_faults Samples.world_ab) = false /\
  exists res w',
    processOverdueTaskBatch (fun l => l) ["a"; "missing"; "b"] 2 Samples.world_ab
      = (Ok (Some (OverdueAggregate (bool_decide (failed res = 0)) res)), w') /\
    (forall k, w_db w' !! k =
       if decide (k ∈ ["a"; "missing"; "b"])
       then (fun x => mkTask (id x) (title x) (description x) PENDING (priority x)
                             (dueDate x) (userId x)) <$> w_db Samples.world_ab !! k
       else w_db Samples.world_ab !! k) /\
    map fst (errors res) ≡ₚ filter (fun t => w_db Samples.world_ab !! t = None)
                               ["a"; "missing"; "b"].
Proof.
  assert (H1 : forall l : list string, (fun l => l) l ≡ₚ l) by (intros l; reflexivity).
  assert (H2 : 0 < 2) by lia.
  assert (H4 : f_save (w_faults Samples.world_ab) = false) by reflexivity.
  split; [exact H1|]. split; [exact H2|]. split; [exact world_ab_keys_match|].
  split; [exact H4|].
  exact (overdue_batch_marks_pending (fun l => l) H1 ["a"; "missing"; "b"] 2 Samples.world_ab
           H2 world_ab_keys_match H4).
Defined.

(** X18: a "task-status-update" job with a missing or empty [taskId], a
    missing or empty [status], or a status that is not a [TaskStatus] value
    makes [process] throw a [BadRequestException] before any store access:
    rows and queue are unchanged and [shouldRetry] says not to retry. *)
Lemma process_rejects_invalid_status_update (settle : list string -> list string)
    (j : Job) (attemptsMade : Z) (w : World)
    (Hname : job_name j = "task-status-update")
    (Hbad : falsy (status_update_fields j).1 = true \/ falsy (status_update_fields j).2 = true \/
            (status_update_fields j).2 ≫= status_of_value = None) :
  exists msg w', process settle j attemptsMade w = (Throw (BadRequestException msg), w') /\
    w_db w' = w_db w /\ w_queue w' = w_queue w /\
    shouldRetry (BadRequestException msg) attemptsMade = false.
Proof.
  destruct j as [name data att]; simpl in Hname; subst name.
  unfold status_update_fields in Hbad; simpl in Hbad.
  unfold process, dispatch, handleStatusUpdate, shouldRetry. run_monad.
  destruct (decide (attemptsMade >= MAX_RETRIES)); simpl.
  all: destruct data as [t s| | ]; simpl in *;
    [ destruct (falsy t) eqn:Et; simpl;
      [ eexists _, _; split; [reflexivity|]; auto
      | destruct (falsy s) eqn:Es; simpl;
        [ eexists _, _; split; [reflexivity|]; auto
        | destruct Hbad as [?|[?|Hst]]; [congruence|congruence|];
          destruct t as [tid|]; [|discriminate Et];
          rewrite Hst; eexists _, _; split; [reflexivity|]; auto ] ]
    | eexists _, _; split; [reflexivity|]; auto
    | eexists _, _; split; [reflexivity|]; auto ].
Qed.

Lemma process_rejects_invalid_status_update_witness :
  job_name (mkJob "task-status-update" (StatusUpdateData (Some "a") (Some "DONE")) None)
    = "task-status-update" /\
  (falsy (status_update_fields
            (mkJob "task-status-update" (StatusUpdateData (Some "a") (Some "DONE")) None)).1 = true \/
   falsy (status_update_fields
            (mkJob "task-status-update" (StatusUpdateData (Some "a") (Some "DONE")) None)).2 = true \/
   (status_update_fields
      (mkJob "task-status-update" (StatusUpdateData (Some "a") (Some "DONE")) None)).2
     ≫= status_of_value = None) /\
  exists msg w',
    process (fun l => l)
      (mkJob "task-status-update" (StatusUpdateData (Some "a") (Some "DONE")) None) 0
      Samples.world_ab = (Throw (BadRequestException msg), w') /\
    w_db w' = w_db Samples.world_ab /\ w_queue w' = w_queue Samples.world_ab /\
    shouldRetry (BadRequestException msg) 0 = false.
Proof.
  assert (H1 : job_name (mkJob "task-status-update" (StatusUpdateData (Some "a") (Some "DONE")) None)
                 = "task-status-update") by reflexivity.
  assert (H2 : falsy (status_update_fields
            (mkJob "task-status-update" (StatusUpdateData (Some "a") (Some "DONE")) None)).1 = true \/
   falsy (status_update_fields
            (mkJob "task-status-update" (StatusUpdateData (Some "a") (Some "DONE")) None)).2 = true \/
   (status_update_fields
      (mkJob "task-status-update" (StatusUpdateData (Some "a") (Some "DONE")) None)).2
     ≫= status_of_value = None) by (right; right; reflexivity).
  split; [exact H1|]. split; [exact H2|].
  exact (process_rejects_invalid_status_update (fun l => l)
           (mkJob "task-status-update" (StatusUpdateData (Some "a") (Some "DONE")) None) 0
           Samples.world_ab H1 H2).
Defined.

(** X19: for a "task-status-update" job with a non-empty [taskId] and a
    valid status, [process] throws [NotFoundException] with the message
    "Task with ID <id> not found" without touching rows or queue when no row
    is stored under the id ([shouldRetry] then says not to retry); when a row is stored under its own id and the save works, it
    returns the id and the new status, having stored the row with that
    status and every other field kept, and queues nothing. *)
Lemma process_status_update_outcome (settle : list string -> list string)
    (tid v : string) (s : TaskStatus) (att : option Z) (attemptsMade : Z) (w : World)
    (Htid : tid <> "") (Hs : status_of_value v = Some s) :
  let j := mkJob "task-status-update" (StatusUpdateData (Some tid) (Some v)) att in
  (w_db w !! tid = None ->
     exists w', process settle j attemptsMade w =
                  (Throw (NotFoundException ("Task with ID " ++ tid ++ " not found")), w') /\
       w_db w' = w_db w /\ w_queue w' = w_queue w /\
       shouldRetry (NotFoundException ("Task with ID " ++ tid ++ " not found")) attemptsMade = false) /\
  (forall t, w_db w !! tid = Some t -> id t = tid -> f_save (w_faults w) = false ->
     exists w', process settle j attemptsMade w = (Ok (Some (StatusUpdated tid s)), w') /\
       w_db w' = <[tid := mkTask (id t) (title t) (description t) s (priority t)
                                 (dueDate t) (userId t)]> (w_db w) /\
       w_queue w' = w_queue w).
Proof.
  intros j. assert (Hv : v <> "") by (intros ->; discriminate Hs).
  assert (Ht' : falsy (Some tid) = false) by (simpl; apply String.eqb_neq; exact Htid).
  assert (Hv' : falsy (Some v) = false) by (simpl; apply String.eqb_neq; exact Hv).
  split.
  - intros Hn. unfold process, dispatch, handleStatusUpdate, shouldRetry, j. run_monad.
    rewrite Ht', Hv'. simpl. rewrite Hs.
    pose proof (TasksServiceMoreFacts.updateStatus_missing tid s
      (mkWorld (w_db w) (w_txn w) (w_queue w) (w_logs w ++ [(LDebug, "")])
               (w_faults w) (w_next_id w)) Hn) as Hu.
    rewrite Hu. simpl.
    destruct (decide (attemptsMade >= MAX_RETRIES)); simpl;
      eexists; split; [reflexivity| |reflexivity|]; auto.
  - intros t Hfound Hid Hsave. unfold process, dispatch, handleStatusUpdate, j. run_monad.
    rewrite Ht', Hv'. simpl. rewrite Hs.
    pose proof (TasksServiceMoreFacts.updateStatus_found tid s
      (mkWorld (w_db w) (w_txn w) (w_queue w) (w_logs w ++ [(LDebug, "")])
               (w_faults w) (w_next_id w)) t Hfound Hid Hsave) as Hu.
    rewrite Hu. simpl. rewrite Hid.
    eexists. split; [reflexivity|]. split; reflexivity.
Qed.

Lemma process_status_update_outcome_witness :
  "a" <> ""%string /\ status_of_value "COMPLETED" = Some COMPLETED /\
  (w_db Samples.world_ab !! "a" = None ->
     exists w', process (fun l => l)
                  (mkJob "task-status-update" (StatusUpdateData (Some "a") (Some "COMPLETED")) None)
                  0 Samples.world_ab = (Throw (NotFoundException ("Task with ID " ++ "a" ++ " not found")), w') /\
       w_db w' = w_db Samples.world_ab /\ w_queue w' = w_queue Samples.world_ab /\
       shouldRetry (NotFoundException ("Task with ID " ++ "a" ++ " not found")) 0 = false) /\
  (forall t, w_db Samples.world_ab !! "a" = Some t -> id t = "a" ->
     f_save (w_faults Samples.world_ab) = false ->
     exists w', process (fun l => l)
                  (mkJob "task-status-update" (StatusUpdateData (Some "a") (Some "COMPLETED")) None)
                  0 Samples.world_ab = (Ok (Some (StatusUpdated "a" COMPLETED)), w') /\
       w_db w' = <[("a")%string := mkTask (id t) (title t) (description t) COMPLETED (priority t)
                                 (dueDate t) (userId t)]> (w_db Samples.world_ab) /\
       w_queue w' = w_queue Samples.world_ab).
Proof.
  assert (H1 : "a" <> ""%string) by discriminate.
  assert (H2 : status_of_value "COMPLETED" = Some COMPLETED) by reflexivity.
  split; [exact H1|]. split; [exact H2|].
  exact (process_status_update_outcome (fun l => l) "a" "COMPLETED" COMPLETED None 0
           Samples.world_ab H1 H2).
Defined.

(** X20: an "overdue-tasks-notification" job without task ids (none given,
    an empty list, or data of another shape) makes [process] return the
    "no specific tasks" result without touching rows or queue. *)
Lemma process_overdue_without_ids (settle : list string -> list string)
    (j : Job) (attemptsMade : Z) (w : World)
    (Hname : job_name j = "overdue-tasks-notification")
    (Hnone : match job_data j with OverdueData (Some (_ :: _)) _ _ => False | _ => True end) :
  exists w', process settle j attemptsMade w = (Ok (Some NoTaskIds), w') /\
    w_db w' = w_db w /\ w_queue w' = w_queue w.
Proof.
  destruct j as [name data att]; simpl in Hname, Hnone; subst name.
  unfold process, dispatch, handleOverdueTasks. run_monad.
  destruct data as [t s| [[|x ids]|] bs c | ]; simpl;
    try contradiction; (eexists; split; [reflexivity|]; auto).
Qed.

Lemma process_overdue_without_ids_witness :
  job_name (mkJob "overdue-tasks-notification" (OverdueData (Some []) None 0) None)
    = "overdue-tasks-notification" /\
  (match job_data (mkJob "overdue-tasks-notification" (OverdueData (Some []) None 0) None) with
   | OverdueData (Some (_ :: _)) _ _ => False | _ => True end) /\
  exists w', process (fun l => l)
               (mkJob "overdue-tasks-notification" (OverdueData (Some []) None 0) None) 0
               Samples.world_ab = (Ok (Some NoTaskIds), w') /\
    w_db w' = w_db Samples.world_ab /\ w_queue w' = w_queue Samples.world_ab.
Proof.
  assert (H1 : job_name (mkJob "overdue-tasks-notification" (OverdueData (Some []) None 0) None)
                 = "overdue-tasks-notification") by reflexivity.
  assert (H2 : match job_data (mkJob "overdue-tasks-notification" (OverdueData (Some []) None 0) None) with
               | OverdueData (Some (_ :: _)) _ _ => False | _ => True end) by exact I.
  split; [exact H1|]. split; [exact H2|].
  exact (process_overdue_without_ids (fun l => l)
           (mkJob "overdue-tasks-notification" (OverdueData (Some []) None 0) None) 0
           Samples.world_ab H1 H2).
Defined.

End ProcessorMoreFacts.

(** * Which ids of an overdue batch fail *)
Module BatchAggregateFacts.
Import TaskProcessor.

Lemma updateStatus_save_down (i : string) (s : TaskStatus) (w : World) :
  f_save (w_faults w) = true -> exists e, TasksService.updateStatus i s w = (Throw e, w).
Proof.
  intros Hs. unfold TasksService.updateStatus, TasksService.findOne,
    TasksService.repository_save. run_monad.
  destruct (w_db w !! i); simpl; [rewrite Hs|]; eauto.
Qed.

Lemma process_one_all_fail (res : OverdueResults) (t : string) (w : World)
    (Hsave : f_save (w_faults w) = true) :
  exists res' w', process_one res t w = (Ok res', w') /\
    w_db w' = w_db w /\ w_faults w' = w_faults w /\
    map fst (errors res') = map fst (errors res) ++ [t].
Proof.
  unfold process_one, try_catch, bind, ret, log, log_msg, modify.
  destruct (updateStatus_save_down t PENDING w Hsave) as [e He]. rewrite He. simpl.
  do 2 eexists. split; [reflexivity|]. simpl. rewrite map_app. auto.
Qed.

Lemma run_batch_all_fail (batch : list string) :
  forall res w, f_save (w_faults w) = true ->
  exists res' w', run_batch res batch w = (Ok res', w') /\
    w_db w' = w_db w /\ w_faults w' = w_faults w /\
    map fst (errors res') = map fst (errors res) ++ batch.
Proof.
  induction batch as [|t rest IH]; intros res w Hsave; cbn [run_batch].
  - exists res, w. unfold ret. rewrite app_nil_r. auto.
  - destruct (process_one_all_fail res t w Hsave) as (r1 & w1 & H1 & Hdb1 & Hf1 & He1).
    destruct (IH r1 w1 ltac:(congruence)) as (r2 & w2 & H2 & Hdb2 & Hf2 & He2).
    exists r2, w2. unfold bind at 1. rewrite H1, H2.
    split; [reflexivity|]. split; [congruence|]. split; [congruence|].
    rewrite He2, He1, <- app_assoc. reflexivity.
Qed.

Section AllFail.
Variable settle : list string -> list string.
Hypothesis Hsettle : forall l, settle l ≡ₚ l.

Lemma batch_loop_all_fail (ids : list string) (bs : Z) (Hbs : 0 < bs) :
  forall fuel i res w, 0 <= i -> (length ids - Z.to_nat i < fuel)%nat ->
  f_save (w_faults w) = true ->
  exists res' w',
    batch_loop settle fuel ids bs i res w = (Ok (Some res'), w') /\
    map fst (errors res') ≡ₚ map fst (errors res) ++ drop (Z.to_nat i) ids.
Proof.
  intros fuel. induction fuel as [|f IH]; intros i res w Hi Hfuel Hsave; [lia|].
  cbn [batch_loop]. destruct (decide (i < Z.of_nat (length ids))) as [Hlt|Hge].
  - unfold bind at 1, log, log_msg, modify. unfold bind at 1.
    set (wl := mkWorld (w_db w) (w_txn w) (w_queue w) (w_logs w ++ [(LDebug, "")])
                       (w_faults w) (w_next_id w)).
    set (batch := js_slice ids i (i + bs)).
    destruct (run_batch_all_fail (settle batch) res wl Hsave)
      as (r1 & w1 & H1 & Hdb1 & Hf1 & He1).
    rewrite H1.
    destruct (IH (i + bs) r1 w1 ltac:(lia) ltac:(lia) ltac:(simpl in *; congruence))
      as (r2 & w2 & H2 & He2).
    exists r2, w2. rewrite H2. split; [reflexivity|].
    pose proof (BatchFacts.js_slice_step ids i bs Hi Hbs Hlt) as Hstep. fold batch in Hstep.
    rewrite He2, He1, <- app_assoc. apply Permutation_app_head.
    rewrite <- Hstep, (Hsettle batch). reflexivity.
  - exists res, w. unfold ret. split; [reflexivity|].
    rewrite (drop_ge ids (Z.to_nat i)) by lia. simpl. rewrite app_nil_r. reflexivity.
Qed.

Lemma batch_errors_ids (ids : list string) (bs : Z) (w : World) (Hbs : 0 < bs)
    (Hwf : keys_match (w_db w)) :
  forall res w',
    batch_loop settle (S (length ids)) ids bs 0
               (mkOverdueResults (Z.of_nat (length ids)) 0 0 []) w = (Ok (Some res), w') ->
    map fst (errors res) ≡ₚ
      filter (fun t => f_save (w_faults w) = true \/ w_db w !! t = None) ids.
Proof.
  intros res w' H.
  destruct (f_save (w_faults w)) eqn:Hsave.
  - destruct (batch_loop_all_fail ids bs Hbs (S (length ids)) 0
                (mkOverdueResults (Z.of_nat (length ids)) 0 0 []) w ltac:(lia) ltac:(lia)
                Hsave) as (r2 & w2 & H2 & He2).
    rewrite H in H2. injection H2 as -> _. rewrite He2. simpl.
    clear. induction ids as [|t rest IH]; [reflexivity|].
    rewrite filter_cons_True by (left; reflexivity). simpl. rewrite <- IH. reflexivity.
  - destruct (ProcessorMoreFacts.batch_loop_effect settle Hsettle ids bs Hbs (S (length ids)) 0
                (mkOverdueResults (Z.of_nat (length ids)) 0 0 []) w ltac:(lia) ltac:(lia)
                Hwf Hsave) as (r2 & w2 & H2 & _ & He2).
    rewrite H in H2. injection H2 as -> _. rewrite He2. simpl.
    apply Permutation_refl'. symmetry. apply list_filter_iff. intros x.
    split; [intros [Hx|Hx]; [discriminate Hx|exact Hx]|intros Hx; right; exact Hx].
Qed.

End AllFail.

(** C10: with a positive batch size, [processOverdueTaskBatch] returns an
    aggregate whose [total] is the number of ids, in which every id is
    counted once as processed or failed, whose [errors] has one entry per
    failure, each carrying an id of the input (no id more often than it
    occurs there), and whose [success] flag is [failed === 0].  The entries
    of [errors] carry the ids whose update failed: on a store whose rows sit
    under their own ids, their ids are exactly the listed ids with no stored
    row, or every listed id when saving fails.  The promises of a batch may
    settle in any order. *)
Lemma overdue_batch_aggregate (settle : list string -> list string)
    (Hsettle : forall l, settle l ≡ₚ l) (ids : list string) (bs : Z)
    (w : World) (Hbs : 0 < bs) :
  exists res w',
    processOverdueTaskBatch settle ids bs w
      = (Ok (Some (OverdueAggregate (bool_decide (failed res = 0)) res)), w') /\
    total res = Z.of_nat (length ids) /\
    processed res + failed res = total res /\
    Z.of_nat (length (errors res)) = failed res /\
    map fst (errors res) ⊆+ ids /\
    (keys_match (w_db w) ->
       map fst (errors res) ≡ₚ
         filter (fun t => f_save (w_faults w) = true \/ w_db w !! t = None) ids).
Proof.
  unfold processOverdueTaskBatch, bind at 1.
  destruct (BatchFacts.batch_loop_counts settle Hsettle ids bs Hbs (S (length ids)) 0
              (mkOverdueResults (Z.of_nat (length ids)) 0 0 []) w ltac:(lia) ltac:(lia))
    as (r & w1 & E & H & Ht & Hc & He & Hs & Hl).
  pose proof (fun Hwf => batch_errors_ids settle Hsettle ids bs w Hbs Hwf r w1 H) as Herr.
  rewrite H. change (Z.to_nat 0) with 0%nat in *. rewrite drop_0 in *.
  cbn [total processed failed errors app] in *.
  eexists r, _. split; [reflexivity|].
  split; [lia|]. split; [lia|]. split; [rewrite He; lia|]. split; [rewrite He; exact Hs|].
  exact Herr.
Qed.

Lemma overdue_batch_aggregate_witness :
  (forall l : list string, (fun l => l) l ≡ₚ l) /\ 0 < 2 /\
  exists res w',
    processOverdueTaskBatch (fun l => l) ["a"; "missing"; "b"] 2 Samples.world_ab
      = (Ok (Some (OverdueAggregate (bool_decide (failed res = 0)) res)), w') /\
    total res = Z.of_nat (length ["a"; "missing"; "b"]) /\
    processed res + failed res = total res /\
    Z.of_nat (length (errors res)) = failed res /\
    map fst (errors res) ⊆+ ["a"; "missing"; "b"] /\
    (keys_match (w_db Samples.world_ab) ->
       map fst (errors res) ≡ₚ
         filter (fun t => f_save (w_faults Samples.world_ab) = true \/
                          w_db Samples.world_ab !! t = None) ["a"; "missing"; "b"]).
Proof.
  assert (Hs : forall l : list string, (fun l => l) l ≡ₚ l) by (intros l; reflexivity).
  assert (Hbs : 0 < 2) by lia.
  split; [exact Hs|]. split; [exact Hbs|].
  exact (overdue_batch_aggregate (fun l => l) Hs ["a"; "missing"; "b"] 2 Samples.world_ab Hbs).
Defined.

End BatchAggregateFacts.

(** * Further properties of the overdue tasks service *)

Module OverdueMoreFacts.
Import OverdueTasks.

Lemma chunk_aux_spec {A} (fuel : nat) (l : list A) (n : nat) :
  (0 < n)%nat -> (length l <= fuel)%nat ->
  concat (chunk_aux fuel l n) = l /\
  forall c, c ∈ chunk_aux fuel l n -> c <> [] /\ (length c <= n)%nat.
Proof.
  revert l. induction fuel as [|f IH]; intros l Hn Hl.
  - destruct l; simpl in *; [|lia]. split; [reflexivity|]. intros c Hc. inversion Hc.
  - destruct l as [|x l'] eqn:El; simpl.
    + split; [reflexivity|]. intros c Hc. inversion Hc.
    + rewrite <- El. rewrite <- El in Hl.
      destruct (IH (drop n l) Hn) as [Hc Hs].
      { rewrite length_drop. subst l. simpl in *. lia. }
      split.
      * rewrite Hc. apply take_drop.
      * intros c Hin. apply elem_of_cons in Hin as [->|Hin]; [|exact (Hs c Hin)].
        split.
        -- subst l. destruct n as [|n]; [lia|]. simpl. discriminate.
        -- rewrite length_take. lia.
Qed.

(** X21: for a positive [size], [chunkArray(array, size)] splits the array
    into chunks that put together give back the array in order; every
    chunk is non-empty and holds at most [size] elements. *)
Lemma chunkArray_spec {A} (l : list A) (size : Z) (Hsize : 0 < size) :
  concat (chunkArray l size) = l /\
  forall c, c ∈ chunkArray l size -> c <> [] /\ Z.of_nat (length c) <= size.
Proof.
  unfold chunkArray.
  destruct (chunk_aux_spec (length l) l (Z.to_nat size) ltac:(lia) ltac:(lia)) as [Hc Hs].
  split; [exact Hc|]. intros c Hin. destruct (Hs c Hin) as [Hne Hlen]. split; [exact Hne|lia].
Qed.

Lemma chunkArray_spec_witness :
  0 < 2 /\
  concat (chunkArray ["a"; "b"; "c"] 2) = ["a"; "b"; "c"] /\
  forall c, c ∈ chunkArray ["a"; "b"; "c"] 2 -> c <> [] /\ Z.of_nat (length c) <= 2.
Proof.
  assert (H : 0 < 2) by lia.
  split; [exact H|].
  exact (chunkArray_spec ["a"; "b"; "c"] 2 H).
Defined.

Lemma due_le_total : Total due_le.
Proof. intros a b. unfold due_le. lia. Qed.

Lemma due_le_trans : Transitive due_le.
Proof. intros a b c. unfold due_le. lia. Qed.

(** X22: the overdue query returns stored tasks that have a due date before
    [now] and are not COMPLETED, sorted by due date ascending, at most
    [MAX_TASKS_PER_RUN] of them; an eligible task is left out only when the
    result is full and every returned task is due no later than it; when at
    most [MAX_TASKS_PER_RUN] tasks are eligible, it returns all of them. *)
Lemma overdue_query_spec (now : Z) (db : gmap string Task) :
  let E := filter (fun t => eligible now t = true) (map snd (map_to_list db)) in
  let R := overdue_query now db in
  (forall t, t ∈ R -> eligible now t = true /\ exists k, db !! k = Some t) /\
  StronglySorted due_le R /\
  Z.of_nat (length R) <= MAX_TASKS_PER_RUN /\
  (forall t, t ∈ E -> t ∉ R ->
     Z.of_nat (length R) = MAX_TASKS_PER_RUN /\ forall u, u ∈ R -> due_key u <= due_key t) /\
  (Z.of_nat (length E) <= MAX_TASKS_PER_RUN -> R ≡ₚ E).
Proof.
  intros E R.
  assert (Hperm : merge_sort due_le E ≡ₚ E) by apply merge_sort_Permutation.
  pose proof (@StronglySorted_merge_sort _ due_le _ due_le_trans due_le_total E) as Hss.
  assert (Hsplit := take_drop (Z.to_nat MAX_TASKS_PER_RUN) (merge_sort due_le E)).
  rewrite <- Hsplit in Hss. apply StronglySorted_app in Hss as (Hle & Hs1 & _).
  assert (HR : R = take (Z.to_nat MAX_TASKS_PER_RUN) (merge_sort due_le E)) by reflexivity.
  split; [|split; [|split; [|split]]].
  - intros t Ht. rewrite HR in Ht. apply elem_of_take in Ht as [i [Hi _]].
    apply list_elem_of_lookup_2 in Hi. rewrite Hperm in Hi. unfold E in Hi.
    apply list_elem_of_filter in Hi as [He Hin].
    apply list_elem_of_fmap in Hin as [[k t'] [-> Hkv]].
    split; [exact He|]. exists k. apply elem_of_map_to_list. exact Hkv.
  - rewrite HR. exact Hs1.
  - rewrite HR, length_take. unfold MAX_TASKS_PER_RUN. lia.
  - intros t HtE HtR.
    assert (Ht : t ∈ merge_sort due_le E) by (rewrite Hperm; exact HtE).
    rewrite <- Hsplit in Ht.
    apply elem_of_app in Ht as [Ht|Ht]; [rewrite <- HR in Ht; contradiction|].
    split.
    + rewrite HR, length_take.
      destruct (decide (Z.to_nat MAX_TASKS_PER_RUN < length (merge_sort due_le E))%nat).
      * unfold MAX_TASKS_PER_RUN in *. lia.
      * rewrite drop_ge in Ht by lia. inversion Ht.
    + intros u Hu. rewrite HR in Hu. exact (Hle u t Hu Ht).
  - intros Hlen. rewrite HR, take_ge; [exact Hperm|].
    rewrite (Permutation_length Hperm). unfold MAX_TASKS_PER_RUN in *. lia.
Qed.

Lemma add_one_by_one_queue (now : Z) (batches : list (list string)) :
  forall q w, exists q' w', add_one_by_one now batches q w = (Ok q', w') /\
    w_db w' = w_db w /\ w_faults w' = w_faults w /\
    w_queue w' = w_queue w ++ (if f_add (w_faults w) then [] else map (batch_job now) batches).
Proof.
  induction batches as [|b bs IH]; intros q w.
  - exists q, w. simpl. destruct (f_add (w_faults w)); rewrite app_nil_r; auto.
  - cbn [add_one_by_one]. run_monad.
    destruct (f_add (w_faults w)) eqn:Ef; simpl.
    + match goal with |- context [add_one_by_one now bs ?q1 ?w1] =>
        destruct (IH q1 w1) as (q' & w' & H & Hdb & Hf & Hq) end.
      rewrite H. exists q', w'. simpl in *. rewrite Hf, Ef in *. rewrite Hq.
      split; [reflexivity|]. auto.
    + match goal with |- context [add_one_by_one now bs ?q1 ?w1] =>
        destruct (IH q1 w1) as (q' & w' & H & Hdb & Hf & Hq) end.
      rewrite H. exists q', w'. simpl in *. rewrite Hf, Ef in *. rewrite Hq.
      split; [reflexivity|]. split; [exact Hdb|]. split; [congruence|].
      rewrite <- app_assoc. reflexivity.
Qed.

(** X23: [checkOverdueTasks] changes no task.  When the overdue query
    fails it rethrows that error and queues nothing.  When the query works it
    returns normally and queues one "overdue-tasks-notification" job per
    chunk of at most [BATCH_SIZE] ids of the query result, in order, through
    [addBulk] or, when that fails, through one [add] per chunk; only when
    both fail does it queue nothing. *)
Lemma checkOverdueTasks_queues_batches (now : Z) (w : World) :
  (f_query (w_faults w) = true ->
     exists w', checkOverdueTasks now w = (Throw (StoreError "query failed"), w') /\
       w_db w' = w_db w /\ w_queue w' = w_queue w) /\
  (f_query (w_faults w) = false ->
     exists w', checkOverdueTasks now w = (Ok tt, w') /\
       w_db w' = w_db w /\
       w_queue w' = w_queue w ++
         (if f_addBulk (w_faults w) && f_add (w_faults w) then []
          else map (batch_job now)
                 (chunkArray (map id (overdue_query now (w_db w))) BATCH_SIZE))).
Proof.
  assert (Hlen : ¬ (Z.of_nat (length (overdue_query now (w_db w))) > MAX_TASKS_PER_RUN)).
  { unfold overdue_query, MAX_TASKS_PER_RUN. rewrite length_take. lia. }
  split; intros Eq; unfold checkOverdueTasks; run_monad; rewrite Eq; simpl.
  { eexists. split; [reflexivity|]. simpl. auto. }
  rewrite (decide_False _ _ Hlen).
  destruct (decide (length (overdue_query now (w_db w)) = 0%nat)) as [H0|H0].
  - simpl. eexists. split; [reflexivity|]. split; [reflexivity|].
    apply nil_length_inv in H0. rewrite H0. simpl.
    unfold chunkArray. simpl. destruct (_ && _); rewrite ?app_nil_r; reflexivity.
  - simpl. destruct (f_addBulk (w_faults w)) eqn:Eb; simpl.
    + match goal with |- context [add_one_by_one now ?b 0 ?w1] =>
        destruct (add_one_by_one_queue now b 0 w1) as (q' & w' & H & Hdb & Hf & Hq) end.
      rewrite H. simpl in *. eexists. split; [reflexivity|]. simpl.
      split; [exact Hdb|]. rewrite Hq. simpl. reflexivity.
    + eexists. split; [reflexivity|]. simpl. split; [reflexivity|].
      destruct (f_add (w_faults w)); reflexivity.
Qed.

End OverdueMoreFacts.
